(** * midibridge: a UDP-to-serial MIDI bridge

  A shallow embedding of the two variants of the program (src/main.go and
  its sibling with a separate MIDI input device) and the properties of the
  codec, the dispatcher, the device bridge and the listeners.

  Layout:
  - [Go]       the fragment of Go's semantics the program relies on:
               uint8 operators, slices and their bounds checks, panics,
               [os.Exit], [defer], and the [fmt] verbs that appear;
  - [MainGo]   src/main.go;
  - [Part000]  the variant with [ListenMidiIn];
  - [Process]  the running program: the receive loop, the device reader
               and the dispatch goroutines interleaved around the mutex. *)

From Stdlib Require Import Strings.Byte Strings.String Strings.Ascii.
From Stdlib Require Import NArith DecimalString.
From stdpp Require Import base list.

Local Open Scope list_scope.

(* ====================================================================== *)
(** * The Go fragment                                                      *)
(* ====================================================================== *)

Module Go.

(** ** uint8 *)

(** Conversion to [byte] keeps the low 8 bits. *)
Definition byte_of_N (n : N) : byte :=
  match Byte.of_N (n mod 256) with
  | Some b => b
  | None => x00
  end.

(** [b >> k] on a [byte]. *)
Definition shr (b : byte) (k : N) : byte :=
  byte_of_N (N.shiftr (Byte.to_N b) k).

(** [a & b] on [byte]s. *)
Definition band (a b : byte) : byte :=
  byte_of_N (N.land (Byte.to_N a) (Byte.to_N b)).

(** [a | b] and [b << k], used to state that the combined byte can be
    rebuilt from its nibbles. *)
Definition bor (a b : byte) : byte :=
  byte_of_N (N.lor (Byte.to_N a) (Byte.to_N b)).

Definition shl (b : byte) (k : N) : byte :=
  byte_of_N (N.shiftl (Byte.to_N b) k).

(** String comparison [string(a) == b] is byte-wise. *)
Fixpoint bytes_eqb (a b : list byte) : bool :=
  match a, b with
  | [], [] => true
  | x :: a', y :: b' => Byte.eqb x y && bytes_eqb a' b'
  | _, _ => false
  end.

(** ** Effects

    What a piece of code does is recorded as the list of actions it
    performs on the outside world, in order, and the way it ends. *)

Inductive action : Type :=
| Stdout (s : string)            (* fmt.Print / Println / Printf *)
| Stderr (s : string)            (* log.Println, log.Fatal (text only) *)
| Lock                           (* m.mu.Lock() *)
| Unlock                         (* m.mu.Unlock() *)
| DevWrite (data : list byte)    (* m.MidiOut.Write(data) *)
| Spawn (pkt : list byte).       (* go bridge.handleCmd(pkt) *)

Inductive outcome (A : Type) : Type :=
| Ret (a : A)      (* the function returns *)
| Panicked         (* run-time panic, e.g. an index out of range *)
| Exited.          (* os.Exit, reached through log.Fatal *)

Arguments Ret {A} a.
Arguments Panicked {A}.
Arguments Exited {A}.

Definition M (A : Type) : Type := (list action * outcome A)%type.

Definition ret {A} (a : A) : M A := ([], Ret a).
Definition panic {A} : M A := ([], Panicked).
Definition emit (a : action) : M unit := ([a], Ret tt).

Definition bind {A B} (c : M A) (k : A -> M B) : M B :=
  match c with
  | (t, Ret a) => let (t', o) := k a in (t ++ t', o)
  | (t, Panicked) => (t, Panicked)
  | (t, Exited) => (t, Exited)
  end.

(** [defer d; body]: [d] runs when the function returns and also when it
    panics, but not when the process exits. *)
Definition defer {A} (d : list action) (body : M A) : M A :=
  match body with
  | (t, Ret a) => (t ++ d, Ret a)
  | (t, Panicked) => (t ++ d, Panicked)
  | (t, Exited) => (t, Exited)
  end.

Definition actions {A} (c : M A) : list action := fst c.
Definition result {A} (c : M A) : outcome A := snd c.

(** The byte slices handed to the device, in order. *)
Fixpoint dev_writes (t : list action) : list (list byte) :=
  match t with
  | [] => []
  | DevWrite d :: t' => d :: dev_writes t'
  | _ :: t' => dev_writes t'
  end.

(** The lines sent to standard output, in order. *)
Fixpoint printed (t : list action) : list string :=
  match t with
  | [] => []
  | Stdout s :: t' => s :: printed t'
  | _ :: t' => printed t'
  end.

(** ** Slices

    Every slice the program indexes or re-slices was made by
    [make([]byte, n)], so its capacity is its length and it is modelled
    by the list of its elements. Indexing and slicing are bounds-checked
    and panic when the check fails. *)

(** [s[i]] *)
Definition index (s : list byte) (i : nat) : M byte :=
  match s !! i with
  | Some b => ret b
  | None => panic
  end.

(** [s[:hi]] *)
Definition slice_to (s : list byte) (hi : nat) : M (list byte) :=
  if hi <=? length s then ret (take hi s) else panic.

(** [s[lo:]] *)
Definition slice_from (s : list byte) (lo : nat) : M (list byte) :=
  if lo <=? length s then ret (drop lo s) else panic.

(** [s[lo:hi]] *)
Definition slice (s : list byte) (lo hi : nat) : M (list byte) :=
  if (lo <=? hi) && (hi <=? length s) then ret (take (hi - lo) (drop lo s))
  else panic.

(** [dst := make([]byte, n); copy(dst, src)]: the first [n] bytes of
    [src], zero-filled when [src] is shorter. *)
Definition make_copy (n : nat) (src : list byte) : list byte :=
  take n src ++ replicate (n - length src) x00.

(** ** fmt *)

(** [%v] / [%d] of a [byte]: decimal. *)
Definition show_byte (b : byte) : string :=
  NilZero.string_of_uint (N.to_uint (Byte.to_N b)).

Definition bit_char (b : bool) : string := if b then "1" else "0".

(** [%08b] of a [byte]: eight binary digits, most significant first. *)
Definition show_bits (b : byte) : string :=
  let '(b0, (b1, (b2, (b3, (b4, (b5, (b6, b7))))))) := Byte.to_bits b in
  (bit_char b7 ++ bit_char b6 ++ bit_char b5 ++ bit_char b4 ++
   bit_char b3 ++ bit_char b2 ++ bit_char b1 ++ bit_char b0)%string.

(** The line feed that [Println] and the ["\n"] escapes produce. *)
Definition nl : string := String (ascii_of_byte x0a) EmptyString.

(** [fmt.Println(a, b, ...)]: operands separated by a space, then a line
    feed. *)
Fixpoint join_sp (l : list string) : string :=
  match l with
  | [] => EmptyString
  | [s] => s
  | s :: l' => (s ++ " " ++ join_sp l')%string
  end.

Definition Println (args : list string) : M unit :=
  emit (Stdout (join_sp args ++ nl)%string).

Definition Print (s : string) : M unit := emit (Stdout s).

(** [log.Println(err)] and [log.Fatal(err)]; the time stamp that the
    logger puts in front of the text is left out. [log.Fatal] ends the
    process with [os.Exit(1)]. *)
Definition log_Println (e : string) : M unit := emit (Stderr (e ++ nl)%string).

Definition log_Fatal {A} (e : string) : M A := ([Stderr (e ++ nl)%string], Exited).

(** ** Blocking reads

    What one call of [udpSrv.ReadFrom(buf)] returns once it unblocks: the
    bytes that arrived, the sender (a nil address prints as [<nil>]) and
    the error, if any. *)
Record recv : Type := mkRecv {
  rx_data : list byte;
  rx_addr : option string;
  rx_err : option string
}.

(** What one call of [m.MidiIn.Read(buf)] returns. *)
Record devread : Type := mkDevread {
  rd_data : list byte;
  rd_err : option string
}.

(** A read stores at most [len(buf)] of the incoming bytes at the front of
    [buf], leaves the rest of [buf] as it was and returns the count. *)
Definition fill (buf data : list byte) : list byte * nat :=
  let n := Nat.min (length data) (length buf) in
  (take n data ++ drop n buf, n).

Definition show_addr (a : option string) : string :=
  match a with
  | Some s => s
  | None => "<nil>"%string
  end.

End Go.

Import Go.

Notation "x <- c ;; k" := (Go.bind c (fun x => k))
  (at level 100, c at level 99, k at level 200, right associativity).
Notation "c ;;; k" := (Go.bind c (fun _ => k))
  (at level 100, k at level 200, right associativity).

(** The command prefix, [midiCall = `/midi`]. *)
Definition midiCall : list byte := list_byte_of_string "/midi".

(** [type Midi struct], the same in both variants. *)
Record Midi : Type := mkMidi {
  State : byte;
  Channel : byte;
  Note : byte;
  Velocity : byte
}.

(* ====================================================================== *)
(** * src/main.go                                                          *)
(* ====================================================================== *)

Module MainGo.

Definition ToMidi (req : list byte) : M Midi :=
  s <- index req 10 ;;
  c <- index req 10 ;;
  n <- index req 9 ;;
  v <- index req 8 ;;
  ret {| State := shr s 4; Channel := band c x0f; Note := n; Velocity := v |}.

(** [%v] of a [Midi]: the fields in braces, separated by spaces. *)
Definition show_Midi (m : Midi) : string :=
  ("{" ++ show_byte (State m) ++ " " ++ show_byte (Channel m) ++ " " ++
   show_byte (Note m) ++ " " ++ show_byte (Velocity m) ++ "}")%string.

Definition Write (data : list byte) : M unit :=
  emit Lock ;;;
  defer [Unlock] (emit (DevWrite data)).

Definition handleMidi (req : list byte) : M unit :=
  if negb (length req =? 11) then ret tt
  else
    m <- ToMidi req ;;
    Println ["MidiNote: "%string; show_Midi m] ;;;
    b10 <- index req 10 ;;
    b9 <- index req 9 ;;
    b8 <- index req 8 ;;
    Write [b10; b9; b8].

Definition handleCmd (req : list byte) : M unit :=
  p <- slice_to req (length midiCall) ;;
  if bytes_eqb p midiCall then
    req' <- slice_from req (length midiCall) ;;
    handleMidi req'
  else
    Print (string_of_list_byte req ++ " not implemeted" ++ nl)%string.


(** One turn of the receive loop of [main]; the result is the receive
    buffer, which the next turn reuses. *)
Definition main_iter (buf : list byte) (r : recv) : M (list byte) :=
  let '(buf, n) := fill buf (rx_data r) in
  s <- slice buf 0 n ;;
  Println ["Received "%string; string_of_list_byte s; " from "%string;
           show_addr (rx_addr r)] ;;;
  match rx_err r with
  | Some e => log_Println e
  | None => ret tt
  end ;;;
  let bufCopy := make_copy n buf in
  emit (Spawn bufCopy) ;;;
  ret buf.

(** The receive loop of [main] against the receives still to come; when
    they are used up the loop is blocked in [ReadFrom], which is the [Ret]
    here. Start-up (flags, opening the devices, binding the socket) comes
    before the loop and is not part of it. *)
Fixpoint main (buf : list byte) (rs : list recv) : M unit :=
  match rs with
  | [] => ret tt
  | r :: rs' => buf' <- main_iter buf r ;; main buf' rs'
  end.

End MainGo.

(* ====================================================================== *)
(** * The variant with a MIDI input listener                               *)
(* ====================================================================== *)

Module Part000.

Definition ToMidi (req : list byte) : M Midi :=
  s <- index req 10 ;;
  c <- index req 10 ;;
  n <- index req 9 ;;
  v <- index req 8 ;;
  ret {| State := shr s 4; Channel := band c x0f; Note := n; Velocity := v |}.

(** [%+v] of a [Midi]: as [%v], with the field names. *)
Definition show_Midi (m : Midi) : string :=
  ("{State:" ++ show_byte (State m) ++ " Channel:" ++ show_byte (Channel m) ++
   " Note:" ++ show_byte (Note m) ++ " Velocity:" ++ show_byte (Velocity m) ++
   "}")%string.

Definition Write (data : list byte) : M unit :=
  emit Lock ;;;
  defer [Unlock] (emit (DevWrite data)).

Definition handleBridgeIn (req : list byte) : M unit :=
  if negb (length req =? 11) then ret tt
  else
    m <- ToMidi req ;;
    Print ("MidiNote: " ++ show_Midi m ++ nl)%string ;;;
    b10 <- index req 10 ;;
    b9 <- index req 9 ;;
    b8 <- index req 8 ;;
    Write [b10; b9; b8].

Definition handleCmd (req : list byte) : M unit :=
  p <- slice_to req (length midiCall) ;;
  if bytes_eqb p midiCall then
    req' <- slice_from req (length midiCall) ;;
    handleBridgeIn req'
  else
    Print (string_of_list_byte req ++ " not implemeted" ++ nl)%string.


Fixpoint print_bits (req : list byte) : M unit :=
  match req with
  | [] => ret tt
  | b :: req' => Print (show_bits b) ;;; print_bits req'
  end.

Definition handleDeviceIn (req : list byte) : M unit :=
  Print "Midi Device In: " ;;;
  print_bits req ;;;
  Println [].

(** One turn of the loop in the goroutine of [ListenMidiIn]. *)
Definition listen_iter (buf : list byte) (r : devread) : M (list byte) :=
  let '(buf, n) := fill buf (rd_data r) in
  match rd_err r with
  | Some e => log_Fatal e
  | None => ret tt
  end ;;;
  let bufCopy := make_copy n buf in
  handleDeviceIn bufCopy ;;;
  ret buf.

(** The loop against the reads still to come; [Ret] is the loop blocked in
    [Read]. The function around it then waits on [m.close] for ever. *)
Fixpoint ListenMidiIn (buf : list byte) (rs : list devread) : M unit :=
  match rs with
  | [] => ret tt
  | r :: rs' => buf' <- listen_iter buf r ;; ListenMidiIn buf' rs'
  end.

(** One turn of the receive loop of [main]; the result is the receive
    buffer, which the next turn reuses. *)
Definition main_iter (buf : list byte) (r : recv) : M (list byte) :=
  let '(buf, n) := fill buf (rx_data r) in
  s <- slice buf 0 n ;;
  Println ["Received "%string; string_of_list_byte s; " from "%string;
           show_addr (rx_addr r)] ;;;
  match rx_err r with
  | Some e => log_Println e
  | None => ret tt
  end ;;;
  let bufCopy := make_copy n buf in
  emit (Spawn bufCopy) ;;;
  ret buf.

(** The receive loop of [main] against the receives still to come; when
    they are used up the loop is blocked in [ReadFrom], which is the [Ret]
    here. Start-up (flags, opening the devices, binding the socket) comes
    before the loop and is not part of it. *)
Fixpoint main (buf : list byte) (rs : list recv) : M unit :=
  match rs with
  | [] => ret tt
  | r :: rs' => buf' <- main_iter buf r ;; main buf' rs'
  end.

End Part000.


(* ====================================================================== *)
(** * The running process                                                  *)
(* ====================================================================== *)

(** The goroutines of a variant: the dispatcher started for each packet,
    the receive loop of [main] and, where there is one, the loop reading
    the MIDI input device. *)
Record program : Type := mkProgram {
  dispatch : list byte -> M unit;
  recv_iter : list byte -> recv -> M (list byte);
  read_iter : option (list byte -> devread -> M (list byte))
}.

Definition main_go : program :=
  {| dispatch := MainGo.handleCmd;
     recv_iter := MainGo.main_iter;
     read_iter := None |}.

Definition part_000 : program :=
  {| dispatch := Part000.handleCmd;
     recv_iter := Part000.main_iter;
     read_iter := Some Part000.listen_iter |}.

Inductive status : Type :=
| Running
| Crashed        (* an unrecovered panic in some goroutine *)
| Terminated.    (* os.Exit *)

Record proc : Type := mkProc {
  st : status;
  net : list recv;           (* receives still to come on the socket *)
  buf : list byte;           (* the receive buffer of [main] *)
  midi : list devread;       (* reads still to come on the input device *)
  mbuf : list byte;          (* the buffer of the device reader *)
  tasks : list (M unit);     (* dispatch goroutines: what each has left *)
  locked : bool;             (* m.mu *)
  dev : list byte;           (* the bytes that reached the output device *)
  console : list string      (* standard output and the log *)
}.

Definition set_st (x : status) (s : proc) : proc :=
  mkProc x (net s) (buf s) (midi s) (mbuf s) (tasks s) (locked s) (dev s)
         (console s).

Definition set_tasks (x : list (M unit)) (s : proc) : proc :=
  mkProc (st s) (net s) (buf s) (midi s) (mbuf s) x (locked s) (dev s)
         (console s).

Definition set_locked (x : bool) (s : proc) : proc :=
  mkProc (st s) (net s) (buf s) (midi s) (mbuf s) (tasks s) x (dev s)
         (console s).

Definition put_dev (b : byte) (s : proc) : proc :=
  mkProc (st s) (net s) (buf s) (midi s) (mbuf s) (tasks s) (locked s)
         (dev s ++ [b]) (console s).

Definition put_console (l : list string) (s : proc) : proc :=
  mkProc (st s) (net s) (buf s) (midi s) (mbuf s) (tasks s) (locked s)
         (dev s) (console s ++ l).

Definition set_net (rs : list recv) (b : list byte) (s : proc) : proc :=
  mkProc (st s) rs b (midi s) (mbuf s) (tasks s) (locked s) (dev s)
         (console s).

Definition set_midi (rs : list devread) (b : list byte) (s : proc) : proc :=
  mkProc (st s) (net s) (buf s) rs b (tasks s) (locked s) (dev s)
         (console s).

(** The text a listener turn puts on the console and the packets it hands
    to new goroutines. The listeners touch neither the mutex nor the
    device, so nothing else of their actions is looked at. *)
Fixpoint logged (t : list action) : list string :=
  match t with
  | [] => []
  | Stdout x :: t' => x :: logged t'
  | Stderr x :: t' => x :: logged t'
  | _ :: t' => logged t'
  end.

Fixpoint spawned (t : list action) : list (list byte) :=
  match t with
  | [] => []
  | Spawn p :: t' => p :: spawned t'
  | _ :: t' => spawned t'
  end.

Definition halt {A} (o : outcome A) (s : proc) : proc :=
  match o with
  | Ret _ => s
  | Panicked => set_st Crashed s
  | Exited => set_st Terminated s
  end.

Section Process.

Variable P : program.

(** A listener turn, taken in one step. *)
Definition absorb (c : M (list byte)) (s : proc) : proc :=
  halt (result c)
    (set_tasks (tasks s ++ map (dispatch P) (spawned (actions c)))
       (put_console (logged (actions c)) s)).

Definition step_recv (s : proc) : option proc :=
  match net s with
  | [] => None
  | r :: rs =>
      let c := recv_iter P (buf s) r in
      let b := match result c with Ret b => b | _ => buf s end in
      Some (absorb c (set_net rs b s))
  end.

Definition step_read (s : proc) : option proc :=
  match read_iter P, midi s with
  | Some it, r :: rs =>
      let c := it (mbuf s) r in
      let b := match result c with Ret b => b | _ => mbuf s end in
      Some (absorb c (set_midi rs b s))
  | _, _ => None
  end.

(** One step of the [i]-th dispatch goroutine. A write to the device is not
    assumed to be atomic: it goes out one byte per step. [Lock] blocks
    while the mutex is held; unlocking a free mutex is a fatal error. *)
Definition step_task (i : nat) (s : proc) : option proc :=
  match tasks s !! i with
  | None => None
  | Some ([], Ret _) => None
  | Some ([], o) => Some (halt o s)
  | Some (a :: rest, o) =>
      let next := set_tasks (<[i := (rest, o)]> (tasks s)) in
      match a with
      | Stdout x | Stderr x => Some (next (put_console [x] s))
      | Lock => if locked s then None else Some (next (set_locked true s))
      | Unlock =>
          if locked s then Some (next (set_locked false s))
          else Some (set_st Crashed s)
      | DevWrite [] => Some (next s)
      | DevWrite (b :: d) =>
          Some (set_tasks (<[i := (DevWrite d :: rest, o)]> (tasks s))
                  (put_dev b s))
      | Spawn p =>
          Some (set_tasks (<[i := (rest, o)]> (tasks s) ++ [dispatch P p]) s)
      end
  end.

(** The scheduler's choice of who moves next. *)
Inductive choice : Type :=
| Recv
| Read
| Task (i : nat).

(** Nothing moves once the process has crashed or exited. *)
Definition step (c : choice) (s : proc) : option proc :=
  match st s with
  | Running =>
      match c with
      | Recv => step_recv s
      | Read => step_read s
      | Task i => step_task i s
      end
  | _ => None
  end.

Fixpoint run (sched : list choice) (s : proc) : option proc :=
  match sched with
  | [] => Some s
  | c :: sched' =>
      match step c s with
      | Some s' => run sched' s'
      | None => None
      end
  end.

(** The process right after start-up, with [pkts] already handed to
    dispatch goroutines. *)
Definition boot (rs : list recv) (ms : list devread) (pkts : list (list byte))
  : proc :=
  {| st := Running;
     net := rs; buf := replicate 1024 x00;
     midi := ms; mbuf := replicate 1024 x00;
     tasks := map (dispatch P) pkts;
     locked := false; dev := []; console := [] |}.

Definition stuck (s : proc) : Prop := forall c, step c s = None.

Definition finished (t : M unit) : Prop := t = ([], Ret tt).

End Process.

(** The packet of the spec's worked example: the prefix, eight unused
    bytes, velocity 100, note 60 and the combined byte 0x92. *)
Definition note_on_pkt : list byte :=
  midiCall ++ [x00; x01; x02; x03; x04; x05; x06; x07; x64; x3c; x92].

(* ====================================================================== *)
(** * The vocabulary of the statements                                    *)
(* ====================================================================== *)

(** The record that the three offsets of a payload decode to. *)
Definition decoded (p : list byte) : Midi :=
  {| State := shr (nth 10 p x00) 4;
     Channel := band (nth 10 p x00) x0f;
     Note := nth 9 p x00;
     Velocity := nth 8 p x00 |}.

(** The three bytes of a payload that go to the device. *)
Definition wire (p : list byte) : list byte :=
  [nth 10 p x00; nth 9 p x00; nth 8 p x00].

(** The report for a packet that is not a [/midi] command. *)
Definition not_implemented (req : list byte) : M unit :=
  ([Stdout (string_of_list_byte req ++ " not implemeted" ++ nl)%string], Ret tt).

(** The line the receive loop prints for every receive. *)
Definition received_line (s : list byte) (a : option string) : string :=
  (join_sp ["Received "; string_of_list_byte s; " from "; show_addr a] ++ nl)%string.

(** The failing receive and the packet after it that is never taken. *)
Definition closed_conn : recv :=
  mkRecv [] None (Some "use of closed network connection"%string).

Definition next_note : recv :=
  mkRecv note_on_pkt (Some "10.0.0.7:9000"%string) None.

(** A well-formed command: the prefix followed by an 11-byte payload. *)
Definition valid (pkt : list byte) : Prop :=
  take 5 pkt = midiCall /\ length pkt = 16.

(** Where the dispatcher of a valid packet stands: about to print its
    line, about to lock, inside [MidiOut.Write] with [k] bytes out, about
    to unlock, or returned. *)
Inductive phase : Type :=
| PPrint (line : string)
| PLock
| PWrite (k : nat)
| PUnlock
| PDone.

(** What a dispatcher that writes [d] has left to do in each phase. *)
Definition task_at (x : list byte * phase) : M unit :=
  match x.2 with
  | PPrint line => ([Stdout line; Lock; DevWrite x.1; Unlock], Ret tt)
  | PLock => ([Lock; DevWrite x.1; Unlock], Ret tt)
  | PWrite k => ([DevWrite (drop k x.1); Unlock], Ret tt)
  | PUnlock => ([Unlock], Ret tt)
  | PDone => ([], Ret tt)
  end.

(** The steps a dispatcher still needs. *)
Definition rank (x : list byte * phase) : nat :=
  match x.2 with
  | PPrint _ => 4 + length x.1
  | PLock => 3 + length x.1
  | PWrite k => 2 + (length x.1 - k)
  | PUnlock => 1
  | PDone => 0
  end.

Fixpoint work (ts : list (list byte * phase)) : nat :=
  match ts with
  | [] => 0
  | x :: ts' => rank x + work ts'
  end.

(** Collecting something from every dispatcher, in goroutine order. *)
Fixpoint gather {X} (f : list byte * phase -> list X)
    (ts : list (list byte * phase)) : list X :=
  match ts with
  | [] => []
  | x :: ts' => f x ++ gather f ts'
  end.

(** The writes not yet begun. *)
Definition sel_wait (x : list byte * phase) : list (list byte) :=
  match x.2 with
  | PPrint _ | PLock => [x.1]
  | _ => []
  end.

(** The dispatchers between [Lock] and [Unlock]. *)
Definition sel_cs (x : list byte * phase) : list (list byte) :=
  match x.2 with
  | PWrite _ | PUnlock => [x.1]
  | _ => []
  end.

(** The write under way, and what of it is out already. *)
Definition sel_writing (x : list byte * phase) : list (list byte) :=
  match x.2 with
  | PWrite _ => [x.1]
  | _ => []
  end.

Definition sel_partial (x : list byte * phase) : list byte :=
  match x.2 with
  | PWrite k => take k x.1
  | _ => []
  end.

(** The invariant of a pool of dispatchers of valid packets with nothing
    arriving: [ts] says where each dispatcher stands and [done] lists the
    completed writes in the order they were made. The mutex is held exactly
    when one dispatcher is between [Lock] and [Unlock]; the device holds
    the completed writes, whole and one after the other, followed by the
    part of the current write that is out. *)
Definition pool_inv (ds : list (list byte)) (ts : list (list byte * phase))
    (done : list (list byte)) (s : proc) : Prop :=
  tasks s = task_at <$> ts /\
  st s = Running /\ net s = [] /\ midi s = [] /\
  length (gather sel_cs ts) = (if locked s then 1 else 0) /\
  dev s = concat done ++ gather sel_partial ts /\
  done ++ gather sel_writing ts ++ gather sel_wait ts ≡ₚ ds.

(** Two notes on their way at the same time, and a schedule that lets the
    second goroutine overtake the first. *)
Definition note_off_pkt : list byte :=
  midiCall ++ [x00; x01; x02; x03; x04; x05; x06; x07; x00; x3c; x82].

Definition two_notes : list (list byte) := [note_on_pkt; note_off_pkt].

Definition overtaking : list choice :=
  [Task 1; Task 0;
   Task 1; Task 1; Task 1; Task 1; Task 1; Task 1;
   Task 0; Task 0; Task 0; Task 0; Task 0; Task 0].

(** ** Further vocabulary: the dispatcher and the listeners *)

(** The packets that lead to a device write: the prefix and then exactly
    eleven bytes. *)
Definition is_valid (pkt : list byte) : bool :=
  bytes_eqb (take 5 pkt) midiCall && (length pkt =? 16).

(** Whether a goroutine uses the mutex properly: it locks only when it does
    not hold it, writes and unlocks only while it holds it, and ends without
    it. [held] says whether it holds the mutex at the start. *)
Fixpoint guarded (held : bool) (t : list action) : bool :=
  match t with
  | [] => negb held
  | Lock :: t' => negb held && guarded true t'
  | Unlock :: t' => held && guarded false t'
  | DevWrite _ :: t' => held && guarded held t'
  | _ :: t' => guarded held t'
  end.





(** A device read that went well. *)
Definition good_read (d : list byte) : devread := mkDevread d None.

(** ** Further vocabulary: the whole bridge at work *)

(** Where any dispatcher of a packet of five bytes or more stands: it has
    only lines left to print (the report of an unknown command, or nothing
    at all), or it is the dispatcher of a valid packet in one of its
    phases. *)
Inductive gphase : Type :=
| GQuiet (lines : list string)
| GNote (d : list byte) (ph : phase).

Definition gtask_at (g : gphase) : M unit :=
  match g with
  | GQuiet lines => (map Stdout lines, Ret tt)
  | GNote d ph => task_at (d, ph)
  end.

(** The dispatchers of valid packets among all, in goroutine order. *)
Fixpoint notes (gs : list gphase) : list (list byte * phase) :=
  match gs with
  | [] => []
  | GQuiet _ :: gs' => notes gs'
  | GNote d ph :: gs' => (d, ph) :: notes gs'
  end.

(** The lines the quiet dispatchers still have to print. *)
Fixpoint chatter (gs : list gphase) : nat :=
  match gs with
  | [] => 0
  | GQuiet lines :: gs' => length lines + chatter gs'
  | GNote _ _ :: gs' => chatter gs'
  end.

(** The device writes that a sequence of packets calls for: one per valid
    packet, in order. *)
Fixpoint wires (pkts : list (list byte)) : list (list byte) :=
  match pkts with
  | [] => []
  | p :: ps => (if is_valid p then [wire (drop 5 p)] else []) ++ wires ps
  end.

(** The packet that the receive loop makes of a receive. *)
Definition pkt_of (r : recv) : list byte := take 1024 (rx_data r).

(** The books of the mutex and the device: [ws] are the writes called for
    so far, [ts] the dispatchers that make them, [done] the writes made. *)
Definition acct (ws : list (list byte)) (ts : list (list byte * phase))
    (done : list (list byte)) (lk : bool) (dv : list byte) : Prop :=
  length (gather sel_cs ts) = (if lk then 1 else 0) /\
  dv = concat done ++ gather sel_partial ts /\
  done ++ gather sel_writing ts ++ gather sel_wait ts ≡ₚ ws.

(** The invariant of the bridge at work on the receives [rs0], having
    started with the packets [pkts] already dispatched: [seen] are the
    receives taken so far. *)
Definition bridge_inv (pkts : list (list byte)) (rs0 : list recv)
    (gs : list gphase) (done : list (list byte)) (s : proc) : Prop :=
  exists seen,
    rs0 = seen ++ net s /\
    length (buf s) = 1024 /\
    tasks s = gtask_at <$> gs /\
    st s <> Crashed /\
    acct (wires (pkts ++ map pkt_of seen)) (notes gs) done (locked s) (dev s).

(** What is left to do: the steps of the dispatchers, eight steps at most
    for every receive to come, one for every device read to come. *)
Definition todo (gs : list gphase) (s : proc) : nat :=
  work (notes gs) + chatter gs + 8 * length (net s) + length (midi s).

(** A dispatcher that has returned. *)
Definition gdone (g : gphase) : Prop :=
  match g with
  | GQuiet [] => True
  | GNote _ PDone => True
  | _ => False
  end.

(** Traffic for the examples: a note, an unknown command, a bare [/midi],
    and a schedule that lets the bridge take all three and come to rest. *)
Definition mixed_traffic : list recv :=
  [next_note;
   mkRecv (list_byte_of_string "/volume 3") (Some "10.0.0.7:9000"%string) None;
   mkRecv (list_byte_of_string "/midi") None (Some "short read"%string)].

Definition in_turn : list choice :=
  [Recv; Recv; Task 0; Task 1; Recv; Task 0; Task 0; Task 0; Task 0; Task 0;
   Task 0].

(** A process that a packet shorter than five bytes has doomed: it is no
    longer running, or a dispatcher has panicked and waits to be scheduled,
    or the short datagram is still to be received. *)
Definition doomed (s : proc) : Prop :=
  st s <> Running \/
  (exists i, tasks s !! i = Some ([], Panicked)) \/
  Exists (fun r => length (rx_data r) < 5) (net s).

(* ====================================================================== *)
(** * Properties of the Go fragment                                        *)
(* ====================================================================== *)

Lemma bytes_eqb_eq (a b : list byte) : bytes_eqb a b = true <-> a = b.
Proof.
  revert b. induction a as [|x a IH]; intros [|y b]; simpl; try easy.
  rewrite andb_true_iff, IH. split.
  - intros [Hxy ->]. apply Byte.byte_dec_bl in Hxy. by subst.
  - intros [= -> ->]. split; [by apply Byte.byte_dec_lb | done].
Qed.

Lemma bytes_eqb_neq (a b : list byte) : bytes_eqb a b = false <-> a <> b.
Proof.
  rewrite <- bytes_eqb_eq. destruct (bytes_eqb a b); split; congruence.
Qed.

(** The two nibbles are the quotient and the remainder by 16. *)
Lemma shr4_div (b : byte) : Byte.to_N (shr b 4) = (Byte.to_N b / 16)%N.
Proof. destruct b; reflexivity. Qed.

Lemma band15_mod (b : byte) : Byte.to_N (band b x0f) = (Byte.to_N b mod 16)%N.
Proof. destruct b; reflexivity. Qed.

(** Putting the nibbles together again gives the byte back, so the byte
    written to the device is also the one the decoded fields describe. *)
Lemma nibbles_rebuild (b : byte) : bor (shl (shr b 4) 4) (band b x0f) = b.
Proof. destruct b; reflexivity. Qed.

Lemma index_Some (s : list byte) (i : nat) (b : byte) :
  s !! i = Some b -> index s i = ret b.
Proof. unfold index. by intros ->. Qed.

Lemma index_None (s : list byte) (i : nat) :
  length s <= i -> index s i = panic.
Proof. intros H. unfold index. by rewrite (lookup_ge_None_2 s i H). Qed.

Lemma slice_to_short (s : list byte) (hi : nat) :
  length s < hi -> slice_to s hi = panic.
Proof.
  intros H. unfold slice_to.
  destruct (Nat.leb_spec hi (length s)); [lia | done].
Qed.

Lemma slice_to_ok (s : list byte) (hi : nat) :
  hi <= length s -> slice_to s hi = ret (take hi s).
Proof.
  intros H. unfold slice_to.
  destruct (Nat.leb_spec hi (length s)); [done | lia].
Qed.

Lemma slice_from_ok (s : list byte) (lo : nat) :
  lo <= length s -> slice_from s lo = ret (drop lo s).
Proof.
  intros H. unfold slice_from.
  destruct (Nat.leb_spec lo (length s)); [done | lia].
Qed.

(** A list of eleven bytes, spelled out. *)
Lemma eleven (p : list byte) :
  length p = 11 ->
  exists a0 a1 a2 a3 a4 a5 a6 a7 a8 a9 a10,
    p = [a0; a1; a2; a3; a4; a5; a6; a7; a8; a9; a10].
Proof.
  intros H.
  do 11 (destruct p as [|? p]; [discriminate H|]).
  destruct p; [|discriminate H]. by repeat eexists.
Qed.

(* ====================================================================== *)
(** * The codec and the payload handler                                    *)
(* ====================================================================== *)

Lemma MainGo_ToMidi_eleven (p : list byte) :
  length p = 11 -> MainGo.ToMidi p = ret (decoded p).
Proof.
  intros H. destruct (eleven p H) as (?&?&?&?&?&?&?&?&?&?&?&->).
  reflexivity.
Qed.

Lemma Part000_ToMidi_eleven (p : list byte) :
  length p = 11 -> Part000.ToMidi p = ret (decoded p).
Proof.
  intros H. destruct (eleven p H) as (?&?&?&?&?&?&?&?&?&?&?&->).
  reflexivity.
Qed.

Lemma MainGo_handleMidi_eleven (p : list byte) :
  length p = 11 ->
  MainGo.handleMidi p =
    ([Stdout ("MidiNote:  " ++ MainGo.show_Midi (decoded p) ++ nl)%string;
      Lock; DevWrite (wire p); Unlock], Ret tt).
Proof.
  intros H. destruct (eleven p H) as (?&?&?&?&?&?&?&?&?&?&?&->).
  reflexivity.
Qed.

Lemma Part000_handleBridgeIn_eleven (p : list byte) :
  length p = 11 ->
  Part000.handleBridgeIn p =
    ([Stdout ("MidiNote: " ++ Part000.show_Midi (decoded p) ++ nl)%string;
      Lock; DevWrite (wire p); Unlock], Ret tt).
Proof.
  intros H. destruct (eleven p H) as (?&?&?&?&?&?&?&?&?&?&?&->).
  reflexivity.
Qed.

Lemma MainGo_handleMidi_other (p : list byte) :
  length p <> 11 -> MainGo.handleMidi p = ([], Ret tt).
Proof.
  intros H. unfold MainGo.handleMidi.
  by destruct (Nat.eqb_spec (length p) 11).
Qed.

Lemma Part000_handleBridgeIn_other (p : list byte) :
  length p <> 11 -> Part000.handleBridgeIn p = ([], Ret tt).
Proof.
  intros H. unfold Part000.handleBridgeIn.
  by destruct (Nat.eqb_spec (length p) 11).
Qed.

(** C1: for every payload [p] of exactly 11 bytes, handling it writes to
    the output device exactly once, the three bytes [p[10]; p[9]; p[8]] in
    that order: the combined status/channel byte as it was received, then
    the note byte, then the velocity byte. This holds in both variants, and
    the handler returns normally. *)
Theorem payload_written_as_received (p : list byte) :
  length p = 11 ->
  dev_writes (actions (MainGo.handleMidi p))
    = [[nth 10 p x00; nth 9 p x00; nth 8 p x00]] /\
  result (MainGo.handleMidi p) = Ret tt /\
  dev_writes (actions (Part000.handleBridgeIn p))
    = [[nth 10 p x00; nth 9 p x00; nth 8 p x00]] /\
  result (Part000.handleBridgeIn p) = Ret tt.
Proof.
  intros H.
  rewrite (MainGo_handleMidi_eleven p H), (Part000_handleBridgeIn_eleven p H).
  repeat split.
Qed.

Lemma payload_written_as_received_witness :
  length (drop 5 note_on_pkt) = 11 /\
  dev_writes (actions (MainGo.handleMidi (drop 5 note_on_pkt)))
    = [[x92; x3c; x64]].
Proof.
  split; [reflexivity|].
  exact (proj1 (payload_written_as_received (drop 5 note_on_pkt) eq_refl)).
Defined.

(** C2: for every 11-byte payload [p] the decoder returns the record with
    status [p[10] >> 4], channel [p[10] & 0x0F], note [p[9]] and velocity
    [p[8]] (the two nibbles being the quotient and the remainder of
    [p[10]] by 16); with 0x92 at offset 10, 60 at offset 9 and 100 at
    offset 8 it yields status 9, channel 2, note 60, velocity 100, and the
    device receives exactly the bytes 0x92, 60, 100. *)
Theorem decode_fields (p : list byte) :
  length p = 11 ->
  MainGo.ToMidi p =
    ret {| State := shr (nth 10 p x00) 4;
           Channel := band (nth 10 p x00) x0f;
           Note := nth 9 p x00;
           Velocity := nth 8 p x00 |} /\
  Part000.ToMidi p = MainGo.ToMidi p /\
  Byte.to_N (shr (nth 10 p x00) 4) = (Byte.to_N (nth 10 p x00) / 16)%N /\
  Byte.to_N (band (nth 10 p x00) x0f) = (Byte.to_N (nth 10 p x00) mod 16)%N /\
  (nth 10 p x00 = x92 /\ nth 9 p x00 = x3c /\ nth 8 p x00 = x64 ->
   MainGo.ToMidi p = ret (mkMidi x09 x02 x3c x64) /\
   Byte.to_N x09 = 9%N /\ Byte.to_N x02 = 2%N /\
   Byte.to_N x3c = 60%N /\ Byte.to_N x64 = 100%N /\ Byte.to_N x92 = 146%N /\
   dev_writes (actions (MainGo.handleMidi p)) = [[x92; x3c; x64]] /\
   dev_writes (actions (Part000.handleBridgeIn p)) = [[x92; x3c; x64]]).
Proof.
  intros H.
  rewrite (MainGo_ToMidi_eleven p H), (Part000_ToMidi_eleven p H).
  rewrite (MainGo_handleMidi_eleven p H), (Part000_handleBridgeIn_eleven p H).
  split; [reflexivity|]. split; [reflexivity|].
  split; [apply shr4_div|]. split; [apply band15_mod|].
  intros (H10 & H9 & H8). unfold decoded, wire. rewrite H10, H9, H8.
  repeat split.
Qed.

Lemma decode_fields_witness :
  length (drop 5 note_on_pkt) = 11 /\
  MainGo.ToMidi (drop 5 note_on_pkt) = ret (mkMidi x09 x02 x3c x64) /\
  dev_writes (actions (Part000.handleBridgeIn (drop 5 note_on_pkt)))
    = [[x92; x3c; x64]].
Proof.
  split; [reflexivity|].
  pose proof (decode_fields (drop 5 note_on_pkt) eq_refl) as (_&_&_&_&H).
  destruct (H (conj eq_refl (conj eq_refl eq_refl))) as (Hd&_&_&_&_&_&_&Hw).
  exact (conj Hd Hw).
Defined.

(** C3: for every payload whose length is not 11 the payload handler does
    nothing at all: no device write, no [MidiNote] line, no error, and it
    returns normally. Both variants. *)
Theorem wrong_length_is_dropped (p : list byte) :
  length p <> 11 ->
  MainGo.handleMidi p = ([], Ret tt) /\
  Part000.handleBridgeIn p = ([], Ret tt).
Proof.
  intros H. split.
  - by apply MainGo_handleMidi_other.
  - by apply Part000_handleBridgeIn_other.
Qed.

Lemma wrong_length_is_dropped_witness :
  length [x92; x3c; x64] <> 11 /\
  MainGo.handleMidi [x92; x3c; x64] = ([], Ret tt) /\
  Part000.handleBridgeIn [x92; x3c; x64] = ([], Ret tt).
Proof.
  assert (H : length [x92; x3c; x64] <> 11) by (simpl; lia).
  exact (conj H (wrong_length_is_dropped [x92; x3c; x64] H)).
Defined.

(* ====================================================================== *)
(** * The dispatcher                                                       *)
(* ====================================================================== *)

(** What the dispatchers do, case by case on the packet. *)
Lemma MainGo_handleCmd_cases (req : list byte) :
  MainGo.handleCmd req =
    if length req <? 5 then panic
    else if bytes_eqb (take 5 req) midiCall then MainGo.handleMidi (drop 5 req)
    else not_implemented req.
Proof.
  unfold MainGo.handleCmd. change (length midiCall) with 5.
  destruct (Nat.ltb_spec (length req) 5) as [Hlt|Hge].
  - by rewrite slice_to_short.
  - rewrite slice_to_ok, slice_from_ok by done. unfold bind, ret. simpl.
    destruct (bytes_eqb (take 5 req) midiCall); [|done].
    by destruct (MainGo.handleMidi (drop 5 req)).
Qed.

Lemma Part000_handleCmd_cases (req : list byte) :
  Part000.handleCmd req =
    if length req <? 5 then panic
    else if bytes_eqb (take 5 req) midiCall
         then Part000.handleBridgeIn (drop 5 req)
    else not_implemented req.
Proof.
  unfold Part000.handleCmd. change (length midiCall) with 5.
  destruct (Nat.ltb_spec (length req) 5) as [Hlt|Hge].
  - by rewrite slice_to_short.
  - rewrite slice_to_ok, slice_from_ok by done. unfold bind, ret. simpl.
    destruct (bytes_eqb (take 5 req) midiCall); [|done].
    by destruct (Part000.handleBridgeIn (drop 5 req)).
Qed.

Lemma prefix_test_app (rest : list byte) :
  bytes_eqb (take 5 (midiCall ++ rest)) midiCall = true.
Proof. reflexivity. Qed.

(** A packet that starts with [/midi] has its first five bytes removed and
    the rest handed to the payload handler. *)
Lemma MainGo_handleCmd_midi (rest : list byte) :
  MainGo.handleCmd (midiCall ++ rest) = MainGo.handleMidi rest.
Proof. rewrite MainGo_handleCmd_cases. reflexivity. Qed.

Lemma Part000_handleCmd_midi (rest : list byte) :
  Part000.handleCmd (midiCall ++ rest) = Part000.handleBridgeIn rest.
Proof. rewrite Part000_handleCmd_cases. reflexivity. Qed.

(** A packet of at least five bytes that does not start with [/midi] is
    reported and nothing else happens. *)
Lemma MainGo_handleCmd_other (req : list byte) :
  5 <= length req -> take 5 req <> midiCall ->
  MainGo.handleCmd req = not_implemented req.
Proof.
  intros Hlen Hne. rewrite MainGo_handleCmd_cases.
  destruct (Nat.ltb_spec (length req) 5); [lia|].
  apply bytes_eqb_neq in Hne. by rewrite Hne.
Qed.

Lemma Part000_handleCmd_other (req : list byte) :
  5 <= length req -> take 5 req <> midiCall ->
  Part000.handleCmd req = not_implemented req.
Proof.
  intros Hlen Hne. rewrite Part000_handleCmd_cases.
  destruct (Nat.ltb_spec (length req) 5); [lia|].
  apply bytes_eqb_neq in Hne. by rewrite Hne.
Qed.

(** C4: the four-byte packet [/mid] does not start with [/midi], yet the
    dispatcher does not report it: slicing [req[:5]] panics before anything
    is printed, in both variants. (Packets that start with [/midi] are
    stripped and forwarded, and longer packets without the prefix are
    reported: [MainGo_handleCmd_midi], [MainGo_handleCmd_other] and their
    siblings.) *)
Theorem short_packet_not_reported :
  bytes_eqb (take 5 (list_byte_of_string "/mid")) midiCall = false /\
  MainGo.handleCmd (list_byte_of_string "/mid") = ([], Panicked) /\
  Part000.handleCmd (list_byte_of_string "/mid") = ([], Panicked) /\
  printed (actions (MainGo.handleCmd (list_byte_of_string "/mid"))) = [] /\
  printed (actions (Part000.handleCmd (list_byte_of_string "/mid"))) = [] /\
  MainGo.handleCmd (list_byte_of_string "/mid")
    <> not_implemented (list_byte_of_string "/mid").
Proof. repeat split. discriminate. Qed.

(** C5: on every packet shorter than five bytes, the empty one included,
    the dispatcher faults: the slice expression [req[:len(midiCall)]] is out
    of range and panics, in both variants, and no report is made. *)
Theorem short_packet_panics (req : list byte) :
  length req < 5 ->
  MainGo.handleCmd req = ([], Panicked) /\
  Part000.handleCmd req = ([], Panicked).
Proof.
  intros H. rewrite MainGo_handleCmd_cases, Part000_handleCmd_cases.
  destruct (Nat.ltb_spec (length req) 5); [done | lia].
Qed.

Lemma short_packet_panics_witness :
  length (@nil byte) < 5 /\
  MainGo.handleCmd [] = ([], Panicked) /\
  Part000.handleCmd [] = ([], Panicked).
Proof.
  assert (H : length (@nil byte) < 5) by (simpl; lia).
  exact (conj H (short_packet_panics [] H)).
Defined.

(** C9: the two variants agree on the core path. On every packet both
    dispatchers take the same branch: with the prefix both strip it and
    call their payload handler on the rest, without it they behave
    identically (the same report, or the same panic on a short packet).
    Both decoders return the same result, both payload handlers end the
    same way and hand the same bytes to the device, and both drop a payload
    whose length is not 11 without any action. *)
Theorem variants_agree (req : list byte) :
  (if bytes_eqb (take 5 req) midiCall
   then MainGo.handleCmd req = MainGo.handleMidi (drop 5 req) /\
        Part000.handleCmd req = Part000.handleBridgeIn (drop 5 req)
   else MainGo.handleCmd req = Part000.handleCmd req) /\
  MainGo.ToMidi req = Part000.ToMidi req /\
  dev_writes (actions (MainGo.handleMidi req))
    = dev_writes (actions (Part000.handleBridgeIn req)) /\
  result (MainGo.handleMidi req) = result (Part000.handleBridgeIn req) /\
  dev_writes (actions (MainGo.handleCmd req))
    = dev_writes (actions (Part000.handleCmd req)) /\
  result (MainGo.handleCmd req) = result (Part000.handleCmd req) /\
  (if length req =? 11 then
     dev_writes (actions (MainGo.handleMidi req)) = [wire req]
   else MainGo.handleMidi req = ([], Ret tt) /\
        Part000.handleBridgeIn req = ([], Ret tt)).
Proof.
  assert (Hpay : forall p,
    dev_writes (actions (MainGo.handleMidi p))
      = dev_writes (actions (Part000.handleBridgeIn p)) /\
    result (MainGo.handleMidi p) = result (Part000.handleBridgeIn p)).
  { intros p. destruct (decide (length p = 11)) as [H|H].
    - by rewrite MainGo_handleMidi_eleven, Part000_handleBridgeIn_eleven.
    - by rewrite MainGo_handleMidi_other, Part000_handleBridgeIn_other. }
  assert (Hcmd :
    dev_writes (actions (MainGo.handleCmd req))
      = dev_writes (actions (Part000.handleCmd req)) /\
    result (MainGo.handleCmd req) = result (Part000.handleCmd req)).
  { rewrite MainGo_handleCmd_cases, Part000_handleCmd_cases.
    destruct (length req <? 5); [done|].
    destruct (bytes_eqb (take 5 req) midiCall); [apply Hpay | done]. }
  split.
  { rewrite MainGo_handleCmd_cases, Part000_handleCmd_cases.
    destruct (bytes_eqb (take 5 req) midiCall) eqn:E; [|done].
    apply bytes_eqb_eq in E.
    assert (5 <= length req).
    { apply (f_equal length) in E. rewrite length_take in E.
      change (length midiCall) with 5 in E. lia. }
    destruct (Nat.ltb_spec (length req) 5); [lia | done]. }
  split; [reflexivity|].
  split; [apply Hpay|]. split; [apply Hpay|].
  split; [apply Hcmd|]. split; [apply Hcmd|].
  destruct (Nat.eqb_spec (length req) 11) as [H|H].
  - by rewrite MainGo_handleMidi_eleven.
  - split; [by apply MainGo_handleMidi_other
           | by apply Part000_handleBridgeIn_other].
Qed.

(* ====================================================================== *)
(** * The listeners                                                        *)
(* ====================================================================== *)

Lemma fill_length (buf data : list byte) :
  length (fill buf data).1 = length buf.
Proof.
  unfold fill. simpl. rewrite length_app, length_take, length_drop. lia.
Qed.

Lemma fill_count (buf data : list byte) :
  (fill buf data).2 <= length (fill buf data).1.
Proof. rewrite fill_length. unfold fill. simpl. lia. Qed.

(** The front of the buffer after a read is what arrived, cut to the size
    of the buffer. *)
Lemma fill_front (buf data : list byte) :
  take (fill buf data).2 (fill buf data).1 = take (length buf) data.
Proof.
  unfold fill. simpl.
  rewrite take_app_le by (rewrite length_take; lia).
  rewrite take_take.
  destruct (Nat.le_ge_cases (length data) (length buf)) as [H|H].
  - rewrite !Nat.min_l by lia. rewrite !take_ge by lia. done.
  - rewrite !Nat.min_r by lia. done.
Qed.

Lemma slice_front (s : list byte) (n : nat) :
  n <= length s -> slice s 0 n = ret (take n s).
Proof.
  intros H. unfold slice. simpl.
  destruct (Nat.leb_spec n (length s)); [|lia].
  by rewrite Nat.sub_0_r.
Qed.

Lemma make_copy_front (n : nat) (src : list byte) :
  n <= length src -> make_copy n src = take n src.
Proof.
  intros H. unfold make_copy.
  replace (n - length src) with 0 by lia. simpl. by rewrite app_nil_r.
Qed.

(** One turn of the receive loop, spelled out: the line, the logged error
    if there is one, and the goroutine started on the copy. *)
Lemma MainGo_main_iter_spec (buf : list byte) (r : recv) :
  MainGo.main_iter buf r =
    let b := (fill buf (rx_data r)).1 in
    let n := (fill buf (rx_data r)).2 in
    ([Stdout (received_line (take n b) (rx_addr r))] ++
     match rx_err r with
     | Some e => [Stderr (e ++ nl)%string]
     | None => []
     end ++
     [Spawn (take n b)], Ret b).
Proof.
  unfold MainGo.main_iter.
  pose proof (fill_count buf (rx_data r)) as Hn.
  destruct (fill buf (rx_data r)) as [b n]. cbn [fst snd] in Hn |- *.
  rewrite slice_front, make_copy_front by done.
  by destruct (rx_err r).
Qed.

Lemma Part000_main_iter_spec (buf : list byte) (r : recv) :
  Part000.main_iter buf r = MainGo.main_iter buf r.
Proof. reflexivity. Qed.

Lemma MainGo_main_loop_cons (buf : list byte) (r : recv) (rs : list recv) :
  MainGo.main buf (r :: rs) =
    (actions (MainGo.main_iter buf r) ++
     actions (MainGo.main (fill buf (rx_data r)).1 rs),
     result (MainGo.main (fill buf (rx_data r)).1 rs)).
Proof.
  cbn [MainGo.main]. rewrite MainGo_main_iter_spec.
  cbv zeta. unfold bind, actions, result. cbn [fst snd].
  by destruct (MainGo.main (fill buf (rx_data r)).1 rs).
Qed.

(** The receive loop has no way out of its own: whatever the receives
    return, errors included, it takes them all, one turn after the other. *)
Lemma MainGo_main_loop_app (buf : list byte) (rs rs' : list recv) :
  exists buf',
    length buf' = length buf /\
    MainGo.main buf (rs ++ rs') =
      (actions (MainGo.main buf rs) ++
       actions (MainGo.main buf' rs'),
       result (MainGo.main buf' rs')) /\
    result (MainGo.main buf rs) = Ret tt.
Proof.
  revert buf. induction rs as [|r rs IH]; intros buf.
  - exists buf. cbn [app]. by destruct (MainGo.main buf rs').
  - destruct (IH (fill buf (rx_data r)).1) as (buf' & Hlen & Happ & Hret).
    exists buf'. rewrite Hlen, fill_length. split; [done|].
    rewrite <- app_comm_cons, !MainGo_main_loop_cons, Happ.
    unfold actions, result in *. cbn [fst snd].
    split; [|done]. by rewrite <- !app_assoc.
Qed.

(** C10: a receive that returns an error together with a byte count [n]
    is treated like any other after the error is logged: the first [n]
    bytes of the receive buffer are copied and a dispatch goroutine is
    started on the copy, in both variants; with [n = 0] it is the empty
    packet that is dispatched. In the running process the receive step adds
    the dispatcher of that copy to the goroutines. *)
Theorem errored_receive_still_dispatched
    (rbuf data : list byte) (addr : option string) (e : string)
    (rs : list recv) (ms : list devread) (mb : list byte)
    (ts : list (M unit)) (l : bool) (d : list byte) (c : list string) :
  let r := mkRecv data addr (Some e) in
  let b := (fill rbuf data).1 in
  let n := (fill rbuf data).2 in
  MainGo.main_iter rbuf r =
    ([Stdout (received_line (take n b) addr); Stderr (e ++ nl)%string;
      Spawn (take n b)], Ret b) /\
  Part000.main_iter rbuf r = MainGo.main_iter rbuf r /\
  n = Nat.min (length data) (length rbuf) /\
  spawned (actions (MainGo.main_iter rbuf (mkRecv [] addr (Some e)))) = [[]] /\
  step part_000 Recv (mkProc Running (r :: rs) rbuf ms mb ts l d c) =
    Some (mkProc Running rs b ms mb
            (ts ++ [Part000.handleCmd (take n b)]) l d
            (c ++ [received_line (take n b) addr; (e ++ nl)%string])) /\
  step main_go Recv (mkProc Running (r :: rs) rbuf ms mb ts l d c) =
    Some (mkProc Running rs b ms mb
            (ts ++ [MainGo.handleCmd (take n b)]) l d
            (c ++ [received_line (take n b) addr; (e ++ nl)%string])).
Proof.
  intros r b n.
  assert (H : MainGo.main_iter rbuf r =
    ([Stdout (received_line (take n b) addr); Stderr (e ++ nl)%string;
      Spawn (take n b)], Ret b)) by apply MainGo_main_iter_spec.
  split; [exact H|]. split; [reflexivity|]. split; [reflexivity|].
  split; [by rewrite MainGo_main_iter_spec|].
  split.
  - unfold step, step_recv. cbn [st net buf recv_iter part_000].
    rewrite Part000_main_iter_spec, H. reflexivity.
  - unfold step, step_recv. cbn [st net buf recv_iter main_go].
    rewrite H. reflexivity.
Qed.

(** ** The MIDI input listener *)

Lemma print_bits_spec (req : list byte) :
  Part000.print_bits req = (map (fun b => Stdout (show_bits b)) req, Ret tt).
Proof.
  induction req as [|b req IH]; [done|].
  cbn [Part000.print_bits map]. by rewrite IH.
Qed.

Lemma handleDeviceIn_spec (req : list byte) :
  Part000.handleDeviceIn req =
    (Stdout "Midi Device In: " ::
     map (fun b => Stdout (show_bits b)) req ++ [Stdout nl], Ret tt).
Proof. unfold Part000.handleDeviceIn. by rewrite print_bits_spec. Qed.

(** A read without error: the bytes read are printed and the loop goes on
    with the same buffer. *)
Lemma listen_iter_ok (buf data : list byte) :
  Part000.listen_iter buf (mkDevread data None) =
    (actions (Part000.handleDeviceIn (take (length buf) data)),
     Ret (fill buf data).1).
Proof.
  unfold Part000.listen_iter. cbn [rd_data rd_err].
  pose proof (fill_count buf data) as Hn.
  pose proof (fill_front buf data) as Hf.
  destruct (fill buf data) as [b n]. cbn [fst snd] in *.
  rewrite make_copy_front, Hf, handleDeviceIn_spec by done.
  unfold bind, ret, actions. cbn [fst]. by rewrite app_nil_r.
Qed.

(** A read with an error: [log.Fatal], and nothing after it. *)
Lemma listen_iter_err (buf data : list byte) (e : string) :
  Part000.listen_iter buf (mkDevread data (Some e)) =
    ([Stderr (e ++ nl)%string], Exited).
Proof.
  unfold Part000.listen_iter. cbn [rd_data rd_err].
  by destruct (fill buf data).
Qed.

Lemma listen_loop_ok (buf data : list byte) (rs : list devread) :
  Part000.ListenMidiIn buf (mkDevread data None :: rs) =
    (actions (Part000.handleDeviceIn (take (length buf) data)) ++
     actions (Part000.ListenMidiIn (fill buf data).1 rs),
     result (Part000.ListenMidiIn (fill buf data).1 rs)).
Proof.
  cbn [Part000.ListenMidiIn]. rewrite listen_iter_ok.
  unfold bind, actions, result. cbn [fst snd].
  by destruct (Part000.ListenMidiIn (fill buf data).1 rs).
Qed.

Lemma listen_loop_err (buf data : list byte) (e : string) (rs : list devread) :
  Part000.ListenMidiIn buf (mkDevread data (Some e) :: rs) =
    ([Stderr (e ++ nl)%string], Exited).
Proof. cbn [Part000.ListenMidiIn]. by rewrite listen_iter_err. Qed.

(** C7: when a read from the MIDI input device returns an error, the
    listening loop logs it and the whole process ends at once. Whatever
    reads went well before, the loop stops at the first failing one and
    none of the reads after it is made; in the running process the step
    that takes the failing read leaves the process terminated, and from
    there no goroutine moves any more: not the reader, not the receive
    loop, not a dispatcher. *)
Theorem read_error_is_fatal
    (rbuf : list byte) (pre : list (list byte)) (data : list byte)
    (e : string) (post : list devread)
    (ns : list recv) (nb mb : list byte)
    (ts : list (M unit)) (l : bool) (d : list byte) (c : list string) :
  let bad := mkDevread data (Some e) in
  let good := map (fun x => mkDevread x None) pre in
  Part000.ListenMidiIn rbuf (good ++ bad :: post) =
    (actions (Part000.ListenMidiIn rbuf good) ++ [Stderr (e ++ nl)%string],
     Exited) /\
  result (Part000.ListenMidiIn rbuf good) = Ret tt /\
  step part_000 Read (mkProc Running ns nb (bad :: post) mb ts l d c) =
    Some (mkProc Terminated ns nb post mb ts l d (c ++ [(e ++ nl)%string])) /\
  forall ch,
    step part_000 ch
      (mkProc Terminated ns nb post mb ts l d (c ++ [(e ++ nl)%string]))
    = None.
Proof.
  intros bad good. subst bad good.
  assert (Hloop : forall b,
    Part000.ListenMidiIn b
      (map (fun x => mkDevread x None) pre ++ mkDevread data (Some e) :: post)
    = (actions (Part000.ListenMidiIn b (map (fun x => mkDevread x None) pre))
       ++ [Stderr (e ++ nl)%string], Exited) /\
    result (Part000.ListenMidiIn b (map (fun x => mkDevread x None) pre))
    = Ret tt).
  { induction pre as [|x pre IH]; intros b.
    - cbn [map app]. by rewrite listen_loop_err.
    - cbn [map]. rewrite <- app_comm_cons, !listen_loop_ok.
      destruct (IH (fill b x).1) as [-> Hr].
      unfold actions, result in *. cbn [fst snd].
      by rewrite <- app_assoc. }
  split; [apply Hloop|]. split; [apply Hloop|]. split; [|done].
  unfold step, step_read. cbn [st read_iter part_000 midi mbuf].
  rewrite listen_iter_err. unfold absorb, actions, result.
  cbn [fst snd spawned logged map halt set_st set_tasks put_console set_midi
       st net buf midi mbuf tasks locked dev console].
  by rewrite app_nil_r.
Qed.

(* ====================================================================== *)
(** * The process: what a panic does                                       *)
(* ====================================================================== *)

Section Halting.

Variable P : program.

Lemma step_halted (c : choice) (s : proc) :
  st s <> Running -> step P c s = None.
Proof. unfold step. by destruct (st s). Qed.

Lemma tasks_halt {A} (o : outcome A) (s : proc) :
  tasks (halt o s) = tasks s.
Proof. by destruct o. Qed.

(** A goroutine that has panicked stays as it is until it is scheduled. *)
Lemma step_keeps_panic (c : choice) (s s' : proc) (i : nat) :
  tasks s !! i = Some ([], Panicked) ->
  step P c s = Some s' ->
  st s' = Crashed \/ tasks s' !! i = Some ([], Panicked).
Proof.
  intros Hi Hstep. unfold step in Hstep.
  destruct (st s) eqn:Hst; try discriminate.
  destruct c as [| |j].
  - unfold step_recv in Hstep. destruct (net s); [discriminate|].
    injection Hstep as <-. right. unfold absorb.
    rewrite tasks_halt. cbn [tasks set_tasks].
    by apply lookup_app_l_Some.
  - unfold step_read in Hstep.
    destruct (read_iter P); [|discriminate].
    destruct (midi s); [discriminate|].
    injection Hstep as <-. right. unfold absorb.
    rewrite tasks_halt. cbn [tasks set_tasks].
    by apply lookup_app_l_Some.
  - unfold step_task in Hstep.
    destruct (decide (j = i)) as [->|Hne].
    + rewrite Hi in Hstep. injection Hstep as <-. by left.
    + destruct (tasks s !! j) as [[[|a rest] o]|]; [| |discriminate].
      * destruct o; try discriminate; injection Hstep as <-;
          right; exact Hi.
      * destruct a as [x|x| | |[|b w]|p];
          try destruct (locked s);
          try discriminate; injection Hstep as <-;
          first [ by left
                | right; cbn [tasks set_tasks put_console set_locked put_dev];
                  try apply lookup_app_l_Some;
                  by rewrite list_lookup_insert_ne ].
Qed.

(** So whatever the scheduler does after a panic, the process cannot come
    to rest while it is still running. *)
Lemma panic_is_fatal (sched : list choice) (s s' : proc) (i : nat) :
  tasks s !! i = Some ([], Panicked) ->
  run P sched s = Some s' ->
  stuck P s' ->
  st s' <> Running.
Proof.
  revert s. induction sched as [|c sched IH]; intros s Hi Hrun Hstuck.
  - injection Hrun as <-. intros Hst.
    specialize (Hstuck (Task i)). unfold step, step_task in Hstuck.
    by rewrite Hst, Hi in Hstuck.
  - cbn [run] in Hrun. destruct (step P c s) as [s1|] eqn:Hstep; [|done].
    destruct (step_keeps_panic c s s1 i Hi Hstep) as [Hc|Hk].
    + destruct sched as [|c' sched].
      * injection Hrun as <-. by rewrite Hc.
      * cbn [run] in Hrun. rewrite step_halted in Hrun by (by rewrite Hc).
        done.
    + by apply (IH s1).
Qed.

End Halting.

(** A packet shorter than the prefix, once handed to a dispatcher, costs
    the process its life whatever else is going on. *)
Lemma short_packet_is_fatal (P : program) (rs : list recv)
    (ms : list devread) (pkts : list (list byte)) (i : nat)
    (pkt : list byte) (sched : list choice) (s : proc) :
  P = main_go \/ P = part_000 ->
  pkts !! i = Some pkt -> length pkt < 5 ->
  run P sched (boot P rs ms pkts) = Some s ->
  stuck P s ->
  st s <> Running.
Proof.
  intros HP Hi Hlen. apply (panic_is_fatal P sched _ s i).
  cbn [tasks boot]. change (map (dispatch P) pkts) with (dispatch P <$> pkts).
  rewrite list_lookup_fmap, Hi. cbn [fmap option_fmap option_map]. f_equal.
  destruct HP as [->| ->]; cbn [dispatch main_go part_000].
  - rewrite MainGo_handleCmd_cases.
    by destruct (Nat.ltb_spec (length pkt) 5); [|lia].
  - rewrite Part000_handleCmd_cases.
    by destruct (Nat.ltb_spec (length pkt) 5); [|lia].
Qed.

(** After a receive that failed with no bytes the process cannot come to
    rest alive, whatever the scheduler does and however many packets
    follow: the dispatcher of the empty packet is there to panic. *)
Lemma empty_errored_receive_is_fatal (P : program) (e : string)
    (rs : list recv) (sched : list choice) (s : proc) :
  P = main_go \/ P = part_000 ->
  run P sched (boot P (mkRecv [] None (Some e) :: rs) [] []) = Some s ->
  stuck P s ->
  st s <> Running.
Proof.
  intros HP Hrun Hstuck.
  destruct sched as [|c sched].
  - injection Hrun as <-. specialize (Hstuck Recv).
    destruct HP as [->| ->]; discriminate Hstuck.
  - cbn [run] in Hrun.
    destruct (step P c _) as [s1|] eqn:Hstep; [|discriminate].
    apply (panic_is_fatal P sched s1 s 0); [|done|done].
    destruct c as [| |i].
    + destruct HP as [->| ->]; injection Hstep as <-; reflexivity.
    + destruct HP as [->| ->]; discriminate Hstep.
    + destruct HP as [->| ->]; destruct i; discriminate Hstep.
Qed.

(** C8: a receive that fails with no bytes (the usual shape of a receive
    error) is logged, and then the empty packet is dispatched all the same;
    its dispatcher panics on [req[:5]] and takes the process down. The
    receive loop dies with it: the next packet, a valid note, is never
    received and nothing reaches the device. Both variants. *)
Theorem receive_error_ends_the_loop :
  (exists s,
     run part_000 [Recv; Task 0] (boot part_000 [closed_conn; next_note] [] [])
       = Some s /\
     st s = Crashed /\ net s = [next_note] /\ dev s = [] /\
     console s = [received_line [] None;
                  ("use of closed network connection" ++ nl)%string] /\
     forall c, step part_000 c s = None) /\
  (exists s,
     run main_go [Recv; Task 0] (boot main_go [closed_conn; next_note] [] [])
       = Some s /\
     st s = Crashed /\ net s = [next_note] /\ dev s = [] /\
     console s = [received_line [] None;
                  ("use of closed network connection" ++ nl)%string] /\
     forall c, step main_go c s = None).
Proof.
  split; eexists; (split; [vm_compute; reflexivity|]); repeat split.
Qed.

(* ====================================================================== *)
(** * The process: dispatchers around the mutex                            *)
(* ====================================================================== *)

Lemma gather_app {X} (f : list byte * phase -> list X)
    (ts1 ts2 : list (list byte * phase)) :
  gather f (ts1 ++ ts2) = gather f ts1 ++ gather f ts2.
Proof.
  induction ts1 as [|x ts1 IH]; [done|].
  cbn [app gather]. by rewrite IH, app_assoc.
Qed.

Lemma work_app (ts1 ts2 : list (list byte * phase)) :
  work (ts1 ++ ts2) = work ts1 + work ts2.
Proof. induction ts1 as [|x ts1 IH]; cbn [app work]; lia. Qed.

(** Outside the critical section nothing is being written. *)
Lemma no_cs_no_write (ts : list (list byte * phase)) :
  gather sel_cs ts = [] ->
  gather sel_writing ts = [] /\ gather sel_partial ts = [].
Proof.
  induction ts as [|[d ph] ts IH]; [done|].
  cbn [gather]. intros H. apply app_eq_nil in H as [H1 H2].
  destruct (IH H2) as [-> ->].
  by destruct ph.
Qed.

Lemma cs_empty (l : list (list byte)) : length l = 0 -> l = [].
Proof. by destruct l. Qed.

Lemma insert_middle {A} (l1 l2 : list A) (x y : A) :
  <[length l1 := y]> (l1 ++ x :: l2) = l1 ++ y :: l2.
Proof.
  replace (length l1) with (length l1 + 0) by lia.
  by rewrite insert_app_r.
Qed.

Lemma retask (ts1 ts2 : list (list byte * phase)) (x y : list byte * phase) :
  <[length ts1 := task_at y]> (task_at <$> (ts1 ++ x :: ts2))
  = task_at <$> (ts1 ++ y :: ts2).
Proof.
  rewrite !fmap_app, !fmap_cons.
  rewrite <- (length_fmap task_at ts1). apply insert_middle.
Qed.

Section Mutex.

Variable P : program.

Ltac split_pool :=
  rewrite ?gather_app, ?work_app, ?length_app in *;
  cbn [gather work sel_cs sel_wait sel_writing sel_partial rank fst snd
       length app] in *;
  rewrite ?length_app, ?app_nil_r in *; cbn [length] in *.

Lemma pool_step (ds : list (list byte)) (ts : list (list byte * phase))
    (done : list (list byte)) (s s' : proc) (c : choice) :
  pool_inv ds ts done s ->
  step P c s = Some s' ->
  exists ts' done', pool_inv ds ts' done' s' /\ work ts = S (work ts').
Proof.
  intros (Htasks & Hst & Hnet & Hmidi & Hcs & Hdev & Hperm) Hstep.
  unfold step in Hstep. rewrite Hst in Hstep. destruct c as [| |i].
  { unfold step_recv in Hstep. by rewrite Hnet in Hstep. }
  { unfold step_read in Hstep. rewrite Hmidi in Hstep.
    by destruct (read_iter P). }
  unfold step_task in Hstep. rewrite Htasks, list_lookup_fmap in Hstep.
  destruct (ts !! i) as [[d ph]|] eqn:Hi; [|discriminate].
  apply list_elem_of_split_length in Hi as (ts1 & ts2 & -> & ->).
  cbn [fmap option_fmap option_map] in Hstep.
  destruct ph as [line| |k| |]; unfold task_at at 1 in Hstep;
    cbn [fst snd] in Hstep.
  - (* the line is printed *)
    injection Hstep as <-.
    exists (ts1 ++ (d, PLock) :: ts2), done.
    split; [|split_pool; lia].
    unfold pool_inv.
    cbn [tasks st net midi locked dev set_tasks put_console].
    change ([Lock; DevWrite d; Unlock], Ret ()) with (task_at (d, PLock)).
    rewrite retask. split_pool. done.
  - (* the mutex is taken *)
    destruct (locked s) eqn:Hl; [discriminate|].
    injection Hstep as <-.
    exists (ts1 ++ (d, PWrite 0) :: ts2), done.
    split; [|split_pool; lia].
    unfold pool_inv.
    cbn [tasks st net midi locked dev set_tasks set_locked].
    change ([DevWrite d; Unlock], Ret ()) with (task_at (d, PWrite 0)).
    rewrite retask. split_pool.
    assert (H1 : gather sel_cs ts1 = []) by (apply cs_empty; lia).
    assert (H2 : gather sel_cs ts2 = []) by (apply cs_empty; lia).
    destruct (no_cs_no_write _ H1) as [Hw1 Hp1].
    destruct (no_cs_no_write _ H2) as [Hw2 Hp2].
    rewrite H1, H2, Hw1, Hw2, Hp1, Hp2 in *.
    cbn [app length take] in *. rewrite app_nil_r.
    repeat split; try done.
    + by rewrite Hdev, app_nil_r.
    + rewrite <- Hperm. apply Permutation_app_head.
      by rewrite Permutation_middle.
  - (* a byte goes out, or the write returns *)
    assert (Hlk : locked s = true /\ gather sel_cs ts1 = [] /\
                  gather sel_cs ts2 = []).
    { split_pool. destruct (locked s); [|lia].
      split; [done|]. split; apply cs_empty; lia. }
    destruct Hlk as (Hl & H1 & H2).
    destruct (no_cs_no_write _ H1) as [Hw1 Hp1].
    destruct (no_cs_no_write _ H2) as [Hw2 Hp2].
    pose proof (take_drop k d) as Htd.
    pose proof (length_drop d k) as Hlen.
    destruct (drop k d) as [|b w] eqn:Hdrop; injection Hstep as <-.
    + exists (ts1 ++ (d, PUnlock) :: ts2), (done ++ [d]).
      rewrite app_nil_r in Htd. cbn [length] in Hlen.
      split; [|split_pool; lia].
      unfold pool_inv.
      cbn [tasks st net midi locked dev set_tasks].
      change ([Unlock], Ret ()) with (task_at (d, PUnlock)).
      rewrite retask. split_pool.
      rewrite H1, H2, Hw1, Hw2, Hp1, Hp2, Htd in *.
      cbn [app length] in *. rewrite ?app_nil_r in *.
      repeat split; try done.
      * rewrite Hdev, concat_app. cbn [concat]. by rewrite app_nil_r.
      * rewrite <- Hperm. by rewrite <- !app_assoc.
    + exists (ts1 ++ (d, PWrite (S k)) :: ts2), done.
      assert (Hk : d !! k = Some b).
      { rewrite <- (Nat.add_0_r k), <- lookup_drop. by rewrite Hdrop. }
      assert (Hw : w = drop (S k) d).
      { rewrite (drop_S _ _ _ Hk) in Hdrop. by injection Hdrop as <-. }
      cbn [length] in Hlen.
      split; [|split_pool; lia].
      unfold pool_inv.
      cbn [tasks st net midi locked dev set_tasks put_dev].
      rewrite Hw.
      change ([DevWrite (drop (S k) d); Unlock], Ret ())
        with (task_at (d, PWrite (S k))).
      rewrite retask. split_pool.
      rewrite H1, H2, Hw1, Hw2, Hp1, Hp2, (take_S_r _ _ _ Hk) in *.
      cbn [app length] in *. rewrite ?app_nil_r in *.
      repeat split; try done.
      by rewrite Hdev, app_assoc.
  - (* the mutex is released *)
    assert (Hlk : locked s = true /\ gather sel_cs ts1 = [] /\
                  gather sel_cs ts2 = []).
    { split_pool. destruct (locked s); [|lia].
      split; [done|]. split; apply cs_empty; lia. }
    destruct Hlk as (Hl & H1 & H2).
    rewrite Hl in Hstep. injection Hstep as <-.
    exists (ts1 ++ (d, PDone) :: ts2), done.
    split; [|split_pool; lia].
    unfold pool_inv.
    cbn [tasks st net midi locked dev set_tasks set_locked].
    change ([], Ret ()) with (task_at (d, PDone)).
    rewrite retask. split_pool.
    rewrite H1, H2 in *. done.
  - discriminate.
Qed.

Lemma pool_run (ds : list (list byte)) (sched : list choice) :
  forall ts done s s',
    pool_inv ds ts done s ->
    run P sched s = Some s' ->
    exists ts' done',
      pool_inv ds ts' done' s' /\ work ts = length sched + work ts'.
Proof.
  induction sched as [|c sched IH]; intros ts done s s' Hinv Hrun.
  - injection Hrun as <-. by exists ts, done.
  - cbn [run] in Hrun. destruct (step P c s) as [s1|] eqn:Hstep; [|done].
    destruct (pool_step _ _ _ _ _ _ Hinv Hstep) as (ts1 & done1 & Hinv1 & Hw1).
    destruct (IH _ _ _ _ Hinv1 Hrun) as (ts' & done' & Hinv' & Hw').
    exists ts', done'. split; [done|]. cbn [length]. lia.
Qed.

(** Every dispatcher has returned, or one of them is not done. *)
Lemma all_done_or_not (ts : list (list byte * phase)) :
  Forall (fun x => x.2 = PDone) ts \/
  exists i d ph, ts !! i = Some (d, ph) /\ ph <> PDone.
Proof.
  induction ts as [|[d ph] ts IH]; [by left|].
  destruct ph as [line| |k| |];
    try by (right; exists 0, d; eexists; split; [reflexivity|]).
  destruct IH as [IH|(i & d' & ph' & Hi & Hne)].
  - left. by constructor.
  - right. by exists (S i), d', ph'.
Qed.

(** Somebody is between [Lock] and [Unlock]. *)
Lemma cs_holder (ts : list (list byte * phase)) :
  gather sel_cs ts <> [] ->
  exists i d ph, ts !! i = Some (d, ph) /\ sel_cs (d, ph) <> [].
Proof.
  induction ts as [|[d ph] ts IH]; [done|].
  cbn [gather]. intros H.
  destruct (sel_cs (d, ph)) eqn:E.
  - destruct (IH H) as (i & d' & ph' & Hi & Hne).
    by exists (S i), d', ph'.
  - exists 0, d, ph. split; [done|]. by rewrite E.
Qed.

Lemma cs_none (ts : list (list byte * phase)) (i : nat)
    (x : list byte * phase) :
  gather sel_cs ts = [] -> ts !! i = Some x -> sel_cs x = [].
Proof.
  intros H Hi. apply list_elem_of_split_length in Hi as (ts1 & ts2 & -> & _).
  rewrite gather_app in H. cbn [gather] in H.
  apply app_eq_nil in H as [_ H]. by apply app_eq_nil in H as [H _].
Qed.

(** A dispatcher that holds the mutex can always move; one that does not
    can move when the mutex is free. *)
Lemma pool_enabled (ds : list (list byte)) (ts : list (list byte * phase))
    (done : list (list byte)) (s : proc) (i : nat) (d : list byte)
    (ph : phase) :
  pool_inv ds ts done s ->
  ts !! i = Some (d, ph) -> ph <> PDone ->
  locked s = false \/ sel_cs (d, ph) <> [] ->
  exists s', step P (Task i) s = Some s'.
Proof.
  intros (Htasks & Hst & Hnet & Hmidi & Hcs & Hdev & Hperm) Hi Hne Hl.
  unfold step, step_task. rewrite Hst, Htasks, list_lookup_fmap, Hi.
  cbn [fmap option_fmap option_map].
  destruct ph as [line| |k| |]; unfold task_at; cbn [fst snd].
  - by eexists.
  - destruct Hl as [->|Hl]; [by eexists | done].
  - destruct (drop k d); by eexists.
  - destruct (locked s) eqn:E; [by eexists|].
    assert (H : sel_cs (d, PUnlock) = []).
    { apply (cs_none ts i); [|done]. apply cs_empty. by rewrite Hcs. }
    done.
  - done.
Qed.

Lemma pool_progress (ds : list (list byte)) (ts : list (list byte * phase))
    (done : list (list byte)) (s : proc) :
  pool_inv ds ts done s ->
  Forall (fun x => x.2 = PDone) ts \/ exists i s', step P (Task i) s = Some s'.
Proof.
  intros Hinv. pose proof Hinv as (_ & _ & _ & _ & Hcs & _).
  destruct (locked s) eqn:Hl.
  - right. destruct (cs_holder ts) as (i & d & ph & Hi & Hne).
    { intros E. by rewrite E in Hcs. }
    exists i. apply (pool_enabled ds ts done s i d ph); try done.
    + intros ->. by apply Hne.
    + by right.
  - destruct (all_done_or_not ts) as [H|(i & d & ph & Hi & Hne)]; [by left|].
    right. exists i. apply (pool_enabled ds ts done s i d ph); try done.
    by left.
Qed.

Lemma all_done_gather {X} (f : list byte * phase -> list X)
    (ts : list (list byte * phase)) :
  (forall d, f (d, PDone) = []) ->
  Forall (fun x => x.2 = PDone) ts -> gather f ts = [].
Proof.
  intros Hf. induction 1 as [|[d ph] ts Hx _ IH]; [done|].
  cbn [snd] in Hx. subst ph. cbn [gather]. by rewrite Hf, IH.
Qed.

(** When nothing can move any more, every dispatcher has returned and the
    device holds the writes whole, one after the other. *)
Lemma pool_stuck (ds : list (list byte)) (ts : list (list byte * phase))
    (done : list (list byte)) (s : proc) :
  pool_inv ds ts done s -> stuck P s ->
  Forall finished (tasks s) /\ dev s = concat done /\ done ≡ₚ ds.
Proof.
  intros Hinv Hstuck.
  destruct (pool_progress _ _ _ _ Hinv) as [Hall|(i & s' & Hs')].
  2: { by rewrite Hstuck in Hs'. }
  destruct Hinv as (Htasks & _ & _ & _ & _ & Hdev & Hperm).
  rewrite (all_done_gather sel_partial) in Hdev by done.
  rewrite (all_done_gather sel_writing), (all_done_gather sel_wait) in Hperm
    by done.
  rewrite !app_nil_r in *. split; [|done].
  rewrite Htasks. apply Forall_fmap. eapply Forall_impl; [exact Hall|].
  intros [d ph] Hx. cbn [snd] in Hx. by subst ph.
Qed.

Lemma all_done_stuck (ds : list (list byte)) (ts : list (list byte * phase))
    (done : list (list byte)) (s : proc) :
  pool_inv ds ts done s -> Forall (fun x => x.2 = PDone) ts -> stuck P s.
Proof.
  intros (Htasks & Hst & Hnet & Hmidi & _) Hall c.
  unfold step. rewrite Hst. destruct c as [| |i].
  - unfold step_recv. by rewrite Hnet.
  - unfold step_read. rewrite Hmidi. by destruct (read_iter P).
  - unfold step_task. rewrite Htasks, list_lookup_fmap.
    destruct (ts !! i) as [[d ph]|] eqn:Hi; [|done].
    rewrite Forall_lookup in Hall. specialize (Hall _ _ Hi).
    cbn [snd] in Hall. by subst ph.
Qed.

(** The dispatchers cannot block each other for ever: some schedule lets
    them all return. *)
Lemma pool_completes (ds : list (list byte)) (n : nat) :
  forall ts done s,
    work ts = n -> pool_inv ds ts done s ->
    exists sched s', run P sched s = Some s' /\ stuck P s'.
Proof.
  induction n as [|n IH]; intros ts done s Hw Hinv.
  - destruct (pool_progress _ _ _ _ Hinv) as [Hall|(i & s' & Hs')].
    + exists [], s. split; [done|]. by eapply all_done_stuck.
    + destruct (pool_step _ _ _ _ _ _ Hinv Hs') as (? & ? & _ & Hw'). lia.
  - destruct (pool_progress _ _ _ _ Hinv) as [Hall|(i & s1 & Hs1)].
    + exists [], s. split; [done|]. by eapply all_done_stuck.
    + destruct (pool_step _ _ _ _ _ _ Hinv Hs1) as (ts1 & d1 & Hinv1 & Hw1).
      destruct (IH ts1 d1 s1) as (sched & s' & Hrun & Hstuck);
        [lia | done |].
      exists (Task i :: sched), s'. split; [|done].
      cbn [run]. by rewrite Hs1.
Qed.

(** At every moment the device stream is a sequence of whole writes
    followed by the beginning of at most one more. *)
Lemma pool_stream (ds : list (list byte)) (ts : list (list byte * phase))
    (done : list (list byte)) (s : proc) :
  pool_inv ds ts done s ->
  exists rest part,
    done ++ rest ≡ₚ ds /\ dev s = concat done ++ part /\
    (part = [] \/ exists w k, w ∈ rest /\ part = take k w).
Proof.
  intros (_ & _ & _ & _ & Hcs & Hdev & Hperm).
  exists (gather sel_writing ts ++ gather sel_wait ts), (gather sel_partial ts).
  split; [done|]. split; [done|].
  assert (Hle : length (gather sel_cs ts) <= 1) by (destruct (locked s); lia).
  clear - Hle. induction ts as [|[d ph] ts IH]; [by left|].
  cbn [gather] in *. rewrite length_app in Hle.
  destruct ph as [line| |k| |];
    cbn [sel_cs sel_writing sel_partial sel_wait fst snd length app] in *.
  - destruct IH as [IH|(w & k & Hin & ->)]; [lia|by left|].
    right. exists w, k. split; [|done].
    rewrite !elem_of_app in *. rewrite elem_of_cons. tauto.
  - destruct IH as [IH|(w & k & Hin & ->)]; [lia|by left|].
    right. exists w, k. split; [|done].
    rewrite !elem_of_app in *. rewrite elem_of_cons. tauto.
  - destruct (no_cs_no_write ts) as [_ ->]; [apply cs_empty; lia|].
    right. exists d, k. rewrite app_nil_r. split; [|done].
    apply elem_of_cons. by left.
  - destruct (no_cs_no_write ts) as [_ ->]; [apply cs_empty; lia|].
    by left.
  - apply IH. lia.
Qed.

(** The dispatcher of a valid packet prints one line and then makes the
    guarded write of the three bytes. *)
Hypothesis dispatch_valid : forall pkt,
  valid pkt ->
  exists line, dispatch P pkt = task_at (wire (drop 5 pkt), PPrint line).

Lemma boot_tasks (pkts : list (list byte)) :
  Forall valid pkts ->
  exists ts,
    dispatch P <$> pkts = task_at <$> ts /\
    gather sel_cs ts = [] /\
    gather sel_wait ts = (fun p => wire (drop 5 p)) <$> pkts /\
    work ts = 7 * length pkts.
Proof.
  induction 1 as [|pkt pkts Hv _ (ts & Ht & Hcs & Hw & Hwork)].
  - by exists [].
  - destruct (dispatch_valid pkt Hv) as [line Hline].
    exists ((wire (drop 5 pkt), PPrint line) :: ts).
    rewrite !fmap_cons, Hline, Ht.
    cbn [gather sel_cs sel_wait work rank fst snd app length wire].
    rewrite Hcs, Hw, Hwork. repeat split. lia.
Qed.

Lemma boot_inv (pkts : list (list byte)) :
  Forall valid pkts ->
  exists ts,
    pool_inv ((fun p => wire (drop 5 p)) <$> pkts) ts [] (boot P [] [] pkts) /\
    work ts = 7 * length pkts.
Proof.
  intros Hv. destruct (boot_tasks pkts Hv) as (ts & Ht & Hcs & Hw & Hwork).
  exists ts. split; [|done].
  unfold pool_inv, boot. cbn [tasks st net midi locked dev].
  destruct (no_cs_no_write _ Hcs) as [-> ->].
  rewrite Hcs, Hw. by repeat split.
Qed.

(** Any number of dispatchers of valid packets, scheduled in any way. *)
Lemma pool_serialised (pkts : list (list byte)) :
  Forall valid pkts ->
  let writes := (fun p => wire (drop 5 p)) <$> pkts in
  (exists sched s, run P sched (boot P [] [] pkts) = Some s /\ stuck P s) /\
  forall sched s,
    run P sched (boot P [] [] pkts) = Some s ->
    st s = Running /\
    length sched <= 7 * length pkts /\
    (exists done rest part,
       done ++ rest ≡ₚ writes /\ dev s = concat done ++ part /\
       (part = [] \/ exists w k, w ∈ rest /\ part = take k w)) /\
    (stuck P s ->
     Forall finished (tasks s) /\
     exists done,
       done ≡ₚ writes /\ dev s = concat done /\
       length done = length pkts /\ Forall (fun w => length w = 3) done).
Proof.
  intros Hv writes. destruct (boot_inv pkts Hv) as (ts0 & Hinv0 & Hwork0).
  split; [by eapply pool_completes|].
  intros sched s Hrun.
  destruct (pool_run _ _ _ _ _ _ Hinv0 Hrun) as (ts & done & Hinv & Hwork).
  split; [apply Hinv|]. split; [lia|]. split.
  - destruct (pool_stream _ _ _ _ Hinv) as (rest & part & H).
    by exists done, rest, part.
  - intros Hstuck.
    destruct (pool_stuck _ _ _ _ Hinv Hstuck) as (Hfin & Hdev & Hperm).
    split; [done|]. exists done. split; [done|]. split; [done|]. split.
    + rewrite Hperm. unfold writes. by rewrite length_fmap.
    + rewrite Hperm. unfold writes. apply Forall_fmap, Forall_true. done.
Qed.

End Mutex.

Lemma valid_split (pkt : list byte) :
  valid pkt -> pkt = midiCall ++ drop 5 pkt /\ length (drop 5 pkt) = 11.
Proof.
  intros [Hp Hl]. split.
  - by rewrite <- Hp, take_drop.
  - rewrite length_drop. lia.
Qed.

Lemma main_go_dispatch_valid (pkt : list byte) :
  valid pkt ->
  exists line, dispatch main_go pkt = task_at (wire (drop 5 pkt), PPrint line).
Proof.
  intros Hv. destruct (valid_split pkt Hv) as [Hs Hl].
  eexists. cbn [dispatch main_go]. rewrite Hs at 1.
  rewrite MainGo_handleCmd_midi, MainGo_handleMidi_eleven by done.
  reflexivity.
Qed.

Lemma part_000_dispatch_valid (pkt : list byte) :
  valid pkt ->
  exists line, dispatch part_000 pkt = task_at (wire (drop 5 pkt), PPrint line).
Proof.
  intros Hv. destruct (valid_split pkt Hv) as [Hs Hl].
  eexists. cbn [dispatch part_000]. rewrite Hs at 1.
  rewrite Part000_handleCmd_midi, Part000_handleBridgeIn_eleven by done.
  reflexivity.
Qed.

(** C6: take any [N] valid [/midi] packets, each in its own dispatch
    goroutine, and let the scheduler interleave the goroutines in any way,
    with the device write itself going out byte by byte. Then, in both
    variants: the goroutines can all run to the end; no run crashes or
    takes more than [7 * N] steps; at every moment the device stream is a
    sequence of whole 3-byte writes followed by the beginning of at most
    one further write; and when nothing can move any more every dispatcher
    has returned and the stream is the concatenation of exactly [N] writes
    of 3 bytes each, one per packet, in some order. *)
Theorem concurrent_writes_not_torn (pkts : list (list byte)) :
  Forall valid pkts ->
  let writes := (fun p => wire (drop 5 p)) <$> pkts in
  forall P, P = main_go \/ P = part_000 ->
  (exists sched s, run P sched (boot P [] [] pkts) = Some s /\ stuck P s) /\
  forall sched s,
    run P sched (boot P [] [] pkts) = Some s ->
    st s = Running /\
    length sched <= 7 * length pkts /\
    (exists done rest part,
       done ++ rest ≡ₚ writes /\ dev s = concat done ++ part /\
       (part = [] \/ exists w k, w ∈ rest /\ part = take k w)) /\
    (stuck P s ->
     Forall finished (tasks s) /\
     exists done,
       done ≡ₚ writes /\ dev s = concat done /\
       length done = length pkts /\ Forall (fun w => length w = 3) done).
Proof.
  intros Hv writes P [->| ->].
  - apply pool_serialised; [apply main_go_dispatch_valid | done].
  - apply pool_serialised; [apply part_000_dispatch_valid | done].
Qed.

Lemma concurrent_writes_not_torn_witness :
  Forall valid two_notes /\
  exists s,
    run part_000 overtaking (boot part_000 [] [] two_notes) = Some s /\
    stuck part_000 s /\
    dev s = [x82; x3c; x00; x92; x3c; x64] /\
    exists done,
      done ≡ₚ [[x92; x3c; x64]; [x82; x3c; x00]] /\ dev s = concat done /\
      length done = 2 /\ Forall (fun w => length w = 3) done.
Proof.
  assert (Hv : Forall valid two_notes) by (repeat constructor).
  split; [exact Hv|].
  destruct (run part_000 overtaking (boot part_000 [] [] two_notes))
    as [s|] eqn:Hrun; [|by vm_compute in Hrun].
  exists s. split; [reflexivity|].
  assert (Hs : stuck part_000 s /\ dev s = [x82; x3c; x00; x92; x3c; x64]).
  { vm_compute in Hrun. injection Hrun as <-. split; [|reflexivity].
    intros [| |[|[|i]]]; reflexivity. }
  destruct Hs as [Hstuck Hdev]. split; [exact Hstuck|]. split; [exact Hdev|].
  destruct (concurrent_writes_not_torn two_notes Hv part_000 (or_intror eq_refl))
    as [_ Hall].
  destruct (Hall overtaking s Hrun) as (_ & _ & _ & Hfin).
  destruct (Hfin Hstuck) as (_ & done & Hperm & Hcat & Hlen & H3).
  exists done. split; [exact Hperm|]. split; [exact Hcat|].
  split; [exact Hlen | exact H3].
Defined.

(* ====================================================================== *)
(** * More on the codec                                                    *)
(* ====================================================================== *)

Lemma index_nth (s : list byte) (i : nat) :
  i < length s -> index s i = ret (nth i s x00).
Proof.
  intros H. unfold index. rewrite nth_lookup.
  destruct (lookup_lt_is_Some_2 s i H) as [b ->]. done.
Qed.

Lemma MainGo_ToMidi_cases (req : list byte) :
  MainGo.ToMidi req =
    if length req <=? 10 then panic else ret (decoded req).
Proof.
  unfold MainGo.ToMidi. destruct (Nat.leb_spec (length req) 10) as [H|H].
  - by rewrite index_None.
  - by rewrite !index_nth by lia.
Qed.

Lemma Part000_ToMidi_cases (req : list byte) :
  Part000.ToMidi req =
    if length req <=? 10 then panic else ret (decoded req).
Proof.
  unfold Part000.ToMidi. destruct (Nat.leb_spec (length req) 10) as [H|H].
  - by rewrite index_None.
  - by rewrite !index_nth by lia.
Qed.

(** X1: [ToMidi] has no length check of its own. On any slice of at most
    ten bytes it panics (index out of range at [req[10]]); on any longer
    slice, of whatever length, it returns the record read from offsets 10,
    9 and 8. Both variants. *)
Theorem ToMidi_bounds (req : list byte) :
  MainGo.ToMidi req =
    (if length req <=? 10 then panic
     else ret {| State := shr (nth 10 req x00) 4;
                 Channel := band (nth 10 req x00) x0f;
                 Note := nth 9 req x00;
                 Velocity := nth 8 req x00 |}) /\
  Part000.ToMidi req = MainGo.ToMidi req.
Proof.
  rewrite MainGo_ToMidi_cases, Part000_ToMidi_cases. done.
Qed.

Lemma nibble_range (b : byte) :
  (Byte.to_N (shr b 4) < 16)%N /\ (Byte.to_N (band b x0f) < 16)%N /\
  (Byte.to_N (shr b 4) * 16 + Byte.to_N (band b x0f))%N = Byte.to_N b.
Proof.
  rewrite shr4_div, band15_mod.
  split; [|split].
  - pose proof (Byte.to_N_bounded b).
    apply N.Div0.div_lt_upper_bound. lia.
  - by apply N.mod_lt.
  - rewrite N.mul_comm. symmetry. apply N.div_mod. done.
Qed.

(** X2: decoding loses nothing of the combined byte. Whenever [ToMidi]
    returns a record, its status and channel are both below 16, the byte at
    offset 10 is [State << 4 | Channel] (as a number, [16 * State +
    Channel]), and note and velocity are the bytes at offsets 9 and 8
    unchanged. *)
Theorem ToMidi_lossless (req : list byte) (m : Midi) :
  MainGo.ToMidi req = ret m ->
  (Byte.to_N (State m) < 16)%N /\ (Byte.to_N (Channel m) < 16)%N /\
  bor (shl (State m) 4) (Channel m) = nth 10 req x00 /\
  (Byte.to_N (State m) * 16 + Byte.to_N (Channel m))%N
    = Byte.to_N (nth 10 req x00) /\
  Note m = nth 9 req x00 /\ Velocity m = nth 8 req x00 /\
  Part000.ToMidi req = ret m.
Proof.
  rewrite Part000_ToMidi_cases, MainGo_ToMidi_cases.
  destruct (length req <=? 10); [discriminate|].
  intros [= <-]. unfold decoded. cbn [State Channel Note Velocity].
  destruct (nibble_range (nth 10 req x00)) as (H1 & H2 & H3).
  by rewrite nibbles_rebuild.
Qed.

Lemma ToMidi_lossless_witness :
  MainGo.ToMidi (drop 5 note_on_pkt) = ret (mkMidi x09 x02 x3c x64) /\
  bor (shl x09 4) x02 = x92.
Proof.
  assert (H : MainGo.ToMidi (drop 5 note_on_pkt) = ret (mkMidi x09 x02 x3c x64))
    by reflexivity.
  split; [exact H|].
  exact (proj1 (proj2 (proj2 (ToMidi_lossless _ _ H)))).
Defined.

(* ====================================================================== *)
(** * More on the dispatcher                                               *)
(* ====================================================================== *)

Lemma sixteen (req : list byte) :
  length req = 16 ->
  wire (drop 5 req) = [nth 15 req x00; nth 14 req x00; nth 13 req x00].
Proof.
  intros H.
  do 16 (destruct req as [|? req]; [discriminate H|]).
  destruct req; [|discriminate H]. reflexivity.
Qed.

Lemma is_valid_spec (pkt : list byte) : is_valid pkt = true <-> valid pkt.
Proof.
  unfold is_valid, valid.
  rewrite andb_true_iff, bytes_eqb_eq, Nat.eqb_eq. done.
Qed.

(** What a dispatcher does, by the three kinds of packet that do not make
    it panic. *)
Lemma MainGo_handleCmd_long (req : list byte) :
  5 <= length req ->
  MainGo.handleCmd req =
    if is_valid req then
      ([Stdout ("MidiNote:  " ++
                MainGo.show_Midi (decoded (drop 5 req)) ++ nl)%string;
        Lock; DevWrite (wire (drop 5 req)); Unlock], Ret tt)
    else if bytes_eqb (take 5 req) midiCall then ([], Ret tt)
    else not_implemented req.
Proof.
  intros Hlen. rewrite MainGo_handleCmd_cases. unfold is_valid.
  destruct (Nat.ltb_spec (length req) 5); [lia|].
  destruct (bytes_eqb (take 5 req) midiCall); [|done]. cbn [andb].
  destruct (Nat.eqb_spec (length req) 16) as [H16|H16].
  - apply MainGo_handleMidi_eleven. rewrite length_drop. lia.
  - apply MainGo_handleMidi_other. rewrite length_drop. lia.
Qed.

Lemma Part000_handleCmd_long (req : list byte) :
  5 <= length req ->
  Part000.handleCmd req =
    if is_valid req then
      ([Stdout ("MidiNote: " ++
                Part000.show_Midi (decoded (drop 5 req)) ++ nl)%string;
        Lock; DevWrite (wire (drop 5 req)); Unlock], Ret tt)
    else if bytes_eqb (take 5 req) midiCall then ([], Ret tt)
    else not_implemented req.
Proof.
  intros Hlen. rewrite Part000_handleCmd_cases. unfold is_valid.
  destruct (Nat.ltb_spec (length req) 5); [lia|].
  destruct (bytes_eqb (take 5 req) midiCall); [|done]. cbn [andb].
  destruct (Nat.eqb_spec (length req) 16) as [H16|H16].
  - apply Part000_handleBridgeIn_eleven. rewrite length_drop. lia.
  - apply Part000_handleBridgeIn_other. rewrite length_drop. lia.
Qed.

Lemma is_valid_long (req : list byte) : is_valid req = true -> length req = 16.
Proof. intros H. apply is_valid_spec in H. apply H. Qed.

(** X3: a packet reaches the device exactly when it is [/midi] followed by
    eleven bytes, 16 bytes in all; the write is then the last three bytes
    of the packet in reverse order. Every other packet, whatever its length
    and content, leads to no device write at all. Both variants. *)
Theorem device_write_iff_valid (req : list byte) :
  dev_writes (actions (MainGo.handleCmd req)) =
    (if bytes_eqb (take 5 req) midiCall && (length req =? 16)
     then [[nth 15 req x00; nth 14 req x00; nth 13 req x00]]
     else []) /\
  dev_writes (actions (Part000.handleCmd req))
    = dev_writes (actions (MainGo.handleCmd req)).
Proof.
  fold (is_valid req).
  destruct (Nat.lt_ge_cases (length req) 5) as [Hs|Hl].
  - rewrite MainGo_handleCmd_cases, Part000_handleCmd_cases.
    destruct (Nat.ltb_spec (length req) 5); [|lia].
    destruct (is_valid req) eqn:E; [|done].
    apply is_valid_long in E. lia.
  - rewrite MainGo_handleCmd_long, Part000_handleCmd_long by done.
    destruct (is_valid req) eqn:E.
    + rewrite <- sixteen by (by apply is_valid_long). done.
    + by destruct (bytes_eqb (take 5 req) midiCall).
Qed.

(** X4: a packet that starts with [/midi] but does not carry exactly eleven
    more bytes vanishes without a trace: no device write, no line on the
    console, not even the report that other unknown packets get. This
    includes the bare command [/midi]. Both variants. *)
Theorem midi_wrong_length_is_silent (rest : list byte) :
  length rest <> 11 ->
  MainGo.handleCmd (midiCall ++ rest) = ([], Ret tt) /\
  Part000.handleCmd (midiCall ++ rest) = ([], Ret tt).
Proof.
  intros H. rewrite MainGo_handleCmd_midi, Part000_handleCmd_midi.
  split; [by apply MainGo_handleMidi_other
         | by apply Part000_handleBridgeIn_other].
Qed.

Lemma midi_wrong_length_is_silent_witness :
  length (@nil byte) <> 11 /\
  MainGo.handleCmd (list_byte_of_string "/midi") = ([], Ret tt) /\
  Part000.handleCmd (list_byte_of_string "/midi") = ([], Ret tt).
Proof.
  assert (H : length (@nil byte) <> 11) by (simpl; lia).
  split; [exact H|].
  exact (midi_wrong_length_is_silent [] H).
Defined.

(** X5: the dispatcher ends in one of two ways only. It panics exactly on
    the packets shorter than five bytes and returns normally on all others;
    it never ends the process itself. Both variants. *)
Theorem dispatcher_outcome (req : list byte) :
  result (MainGo.handleCmd req)
    = (if length req <? 5 then Panicked else Ret tt) /\
  result (Part000.handleCmd req) = result (MainGo.handleCmd req).
Proof.
  destruct (Nat.ltb_spec (length req) 5) as [Hs|Hl].
  - rewrite MainGo_handleCmd_cases, Part000_handleCmd_cases.
    by destruct (Nat.ltb_spec (length req) 5); [|lia].
  - rewrite MainGo_handleCmd_long, Part000_handleCmd_long by done.
    destruct (is_valid req); [done|].
    by destruct (bytes_eqb (take 5 req) midiCall).
Qed.

(** X6: a packet of at least five bytes that does not start with [/midi]
    is answered by one line on standard output, the packet's own bytes
    followed by [ not implemeted] (spelled so) and a line feed, and by
    nothing else; the comparison is on the first five bytes only and
    case-sensitive, so [/MIDI...] is such a packet. Both variants. *)
Theorem unknown_command_reported (req : list byte) :
  5 <= length req -> take 5 req <> midiCall ->
  MainGo.handleCmd req =
    ([Stdout (string_of_list_byte req ++ " not implemeted" ++ nl)%string],
     Ret tt) /\
  Part000.handleCmd req = MainGo.handleCmd req.
Proof.
  intros Hl Hne.
  rewrite MainGo_handleCmd_other, Part000_handleCmd_other by done. done.
Qed.

Lemma unknown_command_reported_witness :
  MainGo.handleCmd (list_byte_of_string "/MIDI") =
    ([Stdout ("/MIDI not implemeted" ++ nl)%string], Ret tt).
Proof.
  assert (Hl : 5 <= length (list_byte_of_string "/MIDI")) by (simpl; lia).
  assert (Hne : take 5 (list_byte_of_string "/MIDI") <> midiCall)
    by discriminate.
  exact (proj1 (unknown_command_reported _ Hl Hne)).
Defined.

(** X7: whatever the packet, the dispatcher uses the mutex properly: it
    makes at most one device write, that write happens between its own
    [Lock] and [Unlock], it never returns or panics with the mutex held,
    and it starts no goroutine. Both variants. *)
Theorem dispatcher_lock_discipline (req : list byte) :
  guarded false (actions (MainGo.handleCmd req)) = true /\
  guarded false (actions (Part000.handleCmd req)) = true /\
  length (dev_writes (actions (MainGo.handleCmd req))) <= 1 /\
  length (dev_writes (actions (Part000.handleCmd req))) <= 1 /\
  spawned (actions (MainGo.handleCmd req)) = [] /\
  spawned (actions (Part000.handleCmd req)) = [].
Proof.
  destruct (Nat.lt_ge_cases (length req) 5) as [Hs|Hl].
  - rewrite MainGo_handleCmd_cases, Part000_handleCmd_cases.
    destruct (Nat.ltb_spec (length req) 5); [|lia].
    cbn. repeat split; lia.
  - rewrite MainGo_handleCmd_long, Part000_handleCmd_long by done.
    destruct (is_valid req); [cbn; repeat split; lia|].
    destruct (bytes_eqb (take 5 req) midiCall); cbn; repeat split; lia.
Qed.

(* ====================================================================== *)
(** * More on the listeners                                                *)
(* ====================================================================== *)


Lemma printed_app (t t' : list action) :
  printed (t ++ t') = printed t ++ printed t'.
Proof.
  induction t as [|a t IH]; [done|].
  destruct a; cbn [app printed]; by rewrite IH.
Qed.

Lemma spawned_app (t t' : list action) :
  spawned (t ++ t') = spawned t ++ spawned t'.
Proof.
  induction t as [|a t IH]; [done|].
  destruct a; cbn [app spawned]; by rewrite IH.
Qed.

Lemma dev_writes_app (t t' : list action) :
  dev_writes (t ++ t') = dev_writes t ++ dev_writes t'.
Proof.
  induction t as [|a t IH]; [done|].
  destruct a; cbn [app dev_writes]; by rewrite IH.
Qed.

Lemma printed_bits (req : list byte) :
  printed (map (fun b => Stdout (show_bits b)) req) = map show_bits req /\
  spawned (map (fun b => Stdout (show_bits b)) req) = [] /\
  dev_writes (map (fun b => Stdout (show_bits b)) req) = [] /\
  guarded false (map (fun b => Stdout (show_bits b)) req) = true.
Proof.
  induction req as [|b req (IH1 & IH2 & IH3 & IH4)]; [done|].
  cbn [map printed spawned dev_writes guarded]. by rewrite IH1.
Qed.



(** X9: as long as the reads go well, [ListenMidiIn] prints one trace per
    read, in order, and each trace shows exactly the bytes of that read
    (cut to the size of the buffer): the reused buffer never lets bytes of
    an earlier, longer read show up again, and its earlier content does not
    matter. The loop does not end by itself. *)
Theorem reader_shows_each_read (rbuf : list byte) (ds : list (list byte)) :
  Part000.ListenMidiIn rbuf (map good_read ds) =
    (flat_map
       (fun d => actions (Part000.handleDeviceIn (take (length rbuf) d))) ds,
     Ret tt).
Proof.
  revert rbuf. induction ds as [|d ds IH]; intros rbuf; [done|].
  cbn [map flat_map]. unfold good_read at 1.
  rewrite listen_loop_ok, IH, fill_length. done.
Qed.

Lemma MainGo_main_iter_effects (rbuf : list byte) (r : recv) :
  spawned (actions (MainGo.main_iter rbuf r)) = [take (length rbuf) (rx_data r)] /\
  printed (actions (MainGo.main_iter rbuf r))
    = [received_line (take (length rbuf) (rx_data r)) (rx_addr r)] /\
  dev_writes (actions (MainGo.main_iter rbuf r)) = [] /\
  result (MainGo.main_iter rbuf r) = Ret (fill rbuf (rx_data r)).1.
Proof.
  rewrite MainGo_main_iter_spec. cbv zeta. rewrite fill_front.
  unfold actions, result. cbn [fst snd].
  by destruct (rx_err r).
Qed.

Lemma Part000_main_eq (rbuf : list byte) (rs : list recv) :
  Part000.main rbuf rs = MainGo.main rbuf rs.
Proof. revert rbuf. induction rs as [|r rs IH]; intros rbuf; [done|].
  cbn [Part000.main MainGo.main]. rewrite Part000_main_iter_spec.
  destruct (MainGo.main_iter rbuf r) as [t [b| |]]; [|done|done].
  unfold bind. by rewrite IH.
Qed.

(** X10: the receive loop starts exactly one dispatch goroutine per
    receive, in the order of arrival, and each goroutine gets the bytes of
    its own datagram, cut to the size of the buffer: a short datagram after
    a long one carries none of the old bytes. The loop prints one
    [Received] line per receive, writes nothing to the device itself and
    never ends by itself, errors or not. Both variants. *)
Theorem receive_loop_dispatches_each (rbuf : list byte) (rs : list recv) :
  spawned (actions (MainGo.main rbuf rs))
    = map (fun r => take (length rbuf) (rx_data r)) rs /\
  printed (actions (MainGo.main rbuf rs))
    = map (fun r => received_line (take (length rbuf) (rx_data r)) (rx_addr r))
          rs /\
  dev_writes (actions (MainGo.main rbuf rs)) = [] /\
  result (MainGo.main rbuf rs) = Ret tt /\
  Part000.main rbuf rs = MainGo.main rbuf rs.
Proof.
  split; [|split; [|split; [|split]]]; [| | | |apply Part000_main_eq];
    revert rbuf; induction rs as [|r rs IH]; intros rbuf; try done;
    rewrite MainGo_main_loop_cons; unfold actions, result; cbn [fst snd map];
    destruct (MainGo_main_iter_effects rbuf r) as (Hs & Hp & Hd & Hr);
    unfold actions, result in *.
  - rewrite spawned_app, Hs. specialize (IH (fill rbuf (rx_data r)).1).
    unfold actions in IH. by rewrite IH, fill_length.
  - rewrite printed_app, Hp. specialize (IH (fill rbuf (rx_data r)).1).
    unfold actions in IH. by rewrite IH, fill_length.
  - rewrite dev_writes_app, Hd. specialize (IH (fill rbuf (rx_data r)).1).
    unfold actions in IH. by rewrite IH.
  - apply (IH (fill rbuf (rx_data r)).1).
Qed.

(* ====================================================================== *)
(** * The whole bridge at work                                             *)
(* ====================================================================== *)

Lemma listen_iter_quiet (b : list byte) (r : devread) :
  spawned (actions (Part000.listen_iter b r)) = [] /\
  dev_writes (actions (Part000.listen_iter b r)) = [] /\
  guarded false (actions (Part000.listen_iter b r)) = true /\
  result (Part000.listen_iter b r) <> Panicked.
Proof.
  destruct r as [d [e|]].
  - by rewrite listen_iter_err.
  - rewrite listen_iter_ok, handleDeviceIn_spec.
    unfold actions, result. cbn [fst snd spawned dev_writes guarded].
    destruct (printed_bits (take (length b) d)) as (_ & Hs & Hd & Hg).
    rewrite spawned_app, dev_writes_app, Hs, Hd.
    repeat split; try done.
    clear. induction (take (length b) d) as [|x l IH]; [done | exact IH].
Qed.



(** ** The books under the moves of one dispatcher *)

Ltac books :=
  unfold acct in *;
  rewrite ?gather_app in *;
  cbn [gather sel_cs sel_wait sel_writing sel_partial fst snd] in *;
  rewrite ?length_app in *; cbn [length app] in *;
  rewrite ?app_nil_r in *.

Lemma cs_alone (ts1 ts2 : list (list byte * phase)) (n : nat) :
  length (gather sel_cs ts1) + S (length (gather sel_cs ts2)) = n ->
  n <= 1 ->
  gather sel_writing ts1 = [] /\ gather sel_partial ts1 = [] /\
  gather sel_writing ts2 = [] /\ gather sel_partial ts2 = [] /\
  gather sel_cs ts1 = [] /\ gather sel_cs ts2 = [].
Proof.
  intros H Hn.
  assert (H1 : gather sel_cs ts1 = []) by (apply cs_empty; lia).
  assert (H2 : gather sel_cs ts2 = []) by (apply cs_empty; lia).
  destruct (no_cs_no_write _ H1) as [-> ->].
  destruct (no_cs_no_write _ H2) as [-> ->]. done.
Qed.

Lemma acct_print ws ts1 ts2 d line done lk dv :
  acct ws (ts1 ++ (d, PPrint line) :: ts2) done lk dv ->
  acct ws (ts1 ++ (d, PLock) :: ts2) done lk dv.
Proof. intros H. books. done. Qed.

Lemma acct_lock ws ts1 ts2 d done dv :
  acct ws (ts1 ++ (d, PLock) :: ts2) done false dv ->
  acct ws (ts1 ++ (d, PWrite 0) :: ts2) done true dv.
Proof.
  intros (Hcs & Hdv & Hperm). books.
  assert (H1 : gather sel_cs ts1 = []) by (apply cs_empty; lia).
  assert (H2 : gather sel_cs ts2 = []) by (apply cs_empty; lia).
  destruct (no_cs_no_write _ H1) as [Hw1 Hp1].
  destruct (no_cs_no_write _ H2) as [Hw2 Hp2].
  rewrite H1, H2, Hw1, Hw2, Hp1, Hp2 in *. cbn [app length take] in *.
  rewrite ?app_nil_r in *. repeat split; try done.
  rewrite <- Hperm. apply Permutation_app_head.
  by rewrite Permutation_middle.
Qed.

Lemma acct_held ws ts1 ts2 d ph done lk dv :
  acct ws (ts1 ++ (d, ph) :: ts2) done lk dv ->
  sel_cs (d, ph) <> [] -> lk = true.
Proof.
  intros (Hcs & _) Hne. rewrite gather_app in Hcs. cbn [gather] in Hcs.
  rewrite !length_app in Hcs.
  destruct lk; [done|]. destruct (sel_cs (d, ph)); [done|].
  cbn [length] in Hcs. lia.
Qed.

Lemma acct_byte ws ts1 ts2 d k b done lk dv :
  acct ws (ts1 ++ (d, PWrite k) :: ts2) done lk dv ->
  d !! k = Some b ->
  acct ws (ts1 ++ (d, PWrite (S k)) :: ts2) done lk (dv ++ [b]).
Proof.
  intros (Hcs & Hdv & Hperm) Hk. books.
  destruct (cs_alone ts1 ts2 _ Hcs) as (Hw1 & Hp1 & Hw2 & Hp2 & _);
    [destruct lk; lia|].
  rewrite Hw1, Hp1, Hw2, Hp2, (take_S_r _ _ _ Hk) in *.
  cbn [app] in *. rewrite ?app_nil_r in *. repeat split; try done.
  by rewrite Hdv, app_assoc.
Qed.

Lemma acct_written ws ts1 ts2 d k done lk dv :
  acct ws (ts1 ++ (d, PWrite k) :: ts2) done lk dv ->
  drop k d = [] ->
  acct ws (ts1 ++ (d, PUnlock) :: ts2) (done ++ [d]) lk dv.
Proof.
  intros (Hcs & Hdv & Hperm) Hk. books.
  destruct (cs_alone ts1 ts2 _ Hcs) as (Hw1 & Hp1 & Hw2 & Hp2 & _);
    [destruct lk; lia|].
  pose proof (take_drop k d) as Htd. rewrite Hk, app_nil_r in Htd.
  rewrite Hw1, Hp1, Hw2, Hp2, Htd in *.
  cbn [app] in *. rewrite ?app_nil_r in *. repeat split; try done.
  - rewrite Hdv, concat_app. cbn [concat]. by rewrite app_nil_r.
  - rewrite <- Hperm. by rewrite <- !app_assoc.
Qed.

Lemma acct_unlock ws ts1 ts2 d done lk dv :
  acct ws (ts1 ++ (d, PUnlock) :: ts2) done lk dv ->
  acct ws (ts1 ++ (d, PDone) :: ts2) done false dv.
Proof.
  intros (Hcs & Hdv & Hperm). books.
  destruct (cs_alone ts1 ts2 _ Hcs) as (_ & _ & _ & _ & H1 & H2);
    [destruct lk; lia|].
  rewrite H1, H2 in *. done.
Qed.

Lemma wires_app (a b : list (list byte)) : wires (a ++ b) = wires a ++ wires b.
Proof.
  induction a as [|p a IH]; [done|].
  cbn [app wires]. by rewrite IH, app_assoc.
Qed.

Lemma acct_arrive ws ts d line done lk dv :
  acct ws ts done lk dv ->
  acct (ws ++ [d]) (ts ++ [(d, PPrint line)]) done lk dv.
Proof.
  intros (Hcs & Hdv & Hperm). books. repeat split; try done.
  - lia.
  - rewrite <- Hperm. by rewrite !app_assoc.
Qed.

Lemma notes_app (gs1 gs2 : list gphase) :
  notes (gs1 ++ gs2) = notes gs1 ++ notes gs2.
Proof.
  induction gs1 as [|[l|d ph] gs1 IH]; cbn [app notes]; by rewrite ?IH.
Qed.

Lemma chatter_app (gs1 gs2 : list gphase) :
  chatter (gs1 ++ gs2) = chatter gs1 + chatter gs2.
Proof.
  induction gs1 as [|[l|d ph] gs1 IH]; cbn [app chatter]; lia.
Qed.

Lemma gretask (gs1 gs2 : list gphase) (x y : gphase) :
  <[length gs1 := gtask_at y]> (gtask_at <$> (gs1 ++ x :: gs2))
  = gtask_at <$> (gs1 ++ y :: gs2).
Proof.
  rewrite !fmap_app, !fmap_cons.
  rewrite <- (length_fmap gtask_at gs1). apply insert_middle.
Qed.

(** ** The invariant of the bridge *)

Section Bridge.

Variable P : program.

(** What the two variants have in common. *)
Hypothesis P_recv : forall b r, recv_iter P b r = MainGo.main_iter b r.

Hypothesis P_disp : forall pkt,
  5 <= length pkt ->
  exists g,
    dispatch P pkt = gtask_at g /\
    ((is_valid pkt = true /\
      exists line, g = GNote (wire (drop 5 pkt)) (PPrint line)) \/
     (is_valid pkt = false /\
      exists lines, g = GQuiet lines /\ length lines <= 1)).

Hypothesis P_read : forall it b r,
  read_iter P = Some it ->
  spawned (actions (it b r)) = [] /\ result (it b r) <> Panicked.

Variable pkts : list (list byte).
Variable rs0 : list recv.

Hypothesis long_rs : Forall (fun r => 5 <= length (rx_data r)) rs0.

Ltac fields :=
  cbn [halt set_st set_tasks set_locked put_dev put_console set_net set_midi
       st net buf midi mbuf tasks locked dev console] in *.

Lemma bridge_step (gs : list gphase) (done : list (list byte))
    (s s' : proc) (c : choice) :
  bridge_inv pkts rs0 gs done s ->
  step P c s = Some s' ->
  exists gs' done', bridge_inv pkts rs0 gs' done' s' /\ todo gs' s' < todo gs s.
Proof.
  intros (seen & Hrs & Hbuf & Htasks & Hst & Hacct) Hstep.
  unfold step in Hstep. destruct (st s) eqn:Hs; try discriminate.
  destruct c as [| |i].
  - (* a datagram is taken *)
    unfold step_recv in Hstep.
    destruct (net s) as [|r rs] eqn:Hnet; [discriminate|].
    injection Hstep as <-. rewrite P_recv.
    destruct (MainGo_main_iter_effects (buf s) r) as (Hsp & _ & _ & Hres).
    unfold absorb. rewrite Hsp, Hres, Hbuf. fold (pkt_of r).
    assert (Hlong : 5 <= length (pkt_of r)).
    { rewrite Forall_forall in long_rs.
      assert (Hin : r ∈ rs0).
      { rewrite Hrs. apply elem_of_app. right. apply elem_of_cons. by left. }
      specialize (long_rs r Hin). unfold pkt_of. rewrite length_take. lia. }
    destruct (P_disp (pkt_of r) Hlong) as (g & Hg & Hkind).
    exists (gs ++ [g]), done. fields. cbn [map]. rewrite Hg.
    assert (Hw : wires (pkts ++ map pkt_of (seen ++ [r]))
                 = wires (pkts ++ map pkt_of seen)
                   ++ (if is_valid (pkt_of r)
                       then [wire (drop 5 (pkt_of r))] else [])).
    { rewrite map_app, app_assoc, wires_app. cbn [map wires].
      by rewrite app_nil_r. }
    split.
    + exists (seen ++ [r]). fields. rewrite Hs.
      split; [by rewrite Hrs, <- app_assoc|].
      split; [by rewrite fill_length|].
      split; [by rewrite Htasks, fmap_app|].
      split; [done|].
      rewrite Hw, notes_app.
      destruct Hkind as [(-> & line & ->)|(-> & lines & -> & _)].
      * cbn [notes]. by apply acct_arrive.
      * cbn [notes]. by rewrite !app_nil_r.
    + unfold todo. fields. rewrite Hnet, notes_app, chatter_app, work_app.
      cbn [length].
      destruct Hkind as [(_ & line & ->)|(_ & lines & -> & Hl)];
        cbn [notes chatter work rank fst snd wire length]; lia.
  - (* the device reader takes a turn *)
    unfold step_read in Hstep.
    destruct (read_iter P) as [it|] eqn:Hit; [|discriminate].
    destruct (midi s) as [|r rs] eqn:Hmidi; [discriminate|].
    injection Hstep as <-.
    destruct (P_read it (mbuf s) r eq_refl) as (Hsp & Hres).
    exists gs, done. unfold absorb. rewrite Hsp. cbn [map].
    split.
    + exists seen.
      destruct (result (it (mbuf s) r)) as [b| |] eqn:E; [|done|];
        fields; rewrite app_nil_r, ?Hs; done.
    + unfold todo.
      destruct (result (it (mbuf s) r)) as [b| |] eqn:E; [|done|];
        fields; rewrite Hmidi; cbn [length]; lia.
  - (* a dispatcher takes a step *)
    unfold step_task in Hstep. rewrite Htasks, list_lookup_fmap in Hstep.
    destruct (gs !! i) as [g|] eqn:Hi; [|discriminate].
    apply list_elem_of_split_length in Hi as (gs1 & gs2 & -> & ->).
    cbn [fmap option_fmap option_map] in Hstep.
    rewrite notes_app in Hacct.
    destruct g as [[|l ls]|d ph]; cbn [gtask_at map notes] in Hstep, Hacct.
    + discriminate.
    + injection Hstep as <-.
      exists (gs1 ++ GQuiet ls :: gs2), done. split.
      * exists seen. fields.
        change (map Stdout ls, Ret ()) with (gtask_at (GQuiet ls)).
        rewrite gretask, notes_app, Hs. done.
      * unfold todo. fields.
        rewrite !notes_app, !chatter_app. cbn [notes chatter length]. lia.
    + destruct ph as [line| |k| |]; unfold task_at at 1 in Hstep;
        cbn [fst snd] in Hstep.
      * injection Hstep as <-.
        exists (gs1 ++ GNote d PLock :: gs2), done. split.
        -- exists seen. fields.
           change ([Lock; DevWrite d; Unlock], Ret ())
             with (gtask_at (GNote d PLock)).
           rewrite gretask, notes_app, Hs. cbn [notes].
           do 4 (split; [done|]). by eapply acct_print.
        -- unfold todo. fields.
           rewrite !notes_app, !chatter_app, !work_app.
           cbn [notes chatter work rank fst snd]. lia.
      * destruct (locked s) eqn:Hl; [discriminate|].
        injection Hstep as <-.
        exists (gs1 ++ GNote d (PWrite 0) :: gs2), done. split.
        -- exists seen. fields.
           change ([DevWrite d; Unlock], Ret ())
             with (gtask_at (GNote d (PWrite 0))).
           rewrite gretask, notes_app, Hs. cbn [notes].
           do 4 (split; [done|]). by apply acct_lock.
        -- unfold todo. fields.
           rewrite !notes_app, !chatter_app, !work_app.
           cbn [notes chatter work rank fst snd]. lia.
      * pose proof (length_drop d k) as Hlen.
        destruct (drop k d) as [|b w] eqn:Hdrop; injection Hstep as <-.
        -- exists (gs1 ++ GNote d PUnlock :: gs2), (done ++ [d]). split.
           ++ exists seen. fields.
              change ([Unlock], Ret ()) with (gtask_at (GNote d PUnlock)).
              rewrite gretask, notes_app, Hs. cbn [notes].
              do 4 (split; [done|]). by eapply acct_written.
           ++ unfold todo. fields. cbn [length] in Hlen.
              rewrite !notes_app, !chatter_app, !work_app.
              cbn [notes chatter work rank fst snd]. lia.
        -- assert (Hk : d !! k = Some b).
           { rewrite <- (Nat.add_0_r k), <- lookup_drop. by rewrite Hdrop. }
           assert (Hw : w = drop (S k) d).
           { rewrite (drop_S _ _ _ Hk) in Hdrop. by injection Hdrop as <-. }
           exists (gs1 ++ GNote d (PWrite (S k)) :: gs2), done. split.
           ++ exists seen. fields. rewrite Hw.
              change ([DevWrite (drop (S k) d); Unlock], Ret ())
                with (gtask_at (GNote d (PWrite (S k)))).
              rewrite gretask, notes_app, Hs. cbn [notes].
              do 4 (split; [done|]). by apply acct_byte.
           ++ unfold todo. fields. cbn [length] in Hlen.
              rewrite !notes_app, !chatter_app, !work_app.
              cbn [notes chatter work rank fst snd]. lia.
      * assert (Hl : locked s = true).
        { by eapply (acct_held _ _ _ d PUnlock). }
        rewrite Hl in Hstep. injection Hstep as <-.
        exists (gs1 ++ GNote d PDone :: gs2), done. split.
        -- exists seen. fields.
           change ([], Ret ()) with (gtask_at (GNote d PDone)).
           rewrite gretask, notes_app, Hs. cbn [notes].
           do 4 (split; [done|]). by eapply acct_unlock.
        -- unfold todo. fields.
           rewrite !notes_app, !chatter_app, !work_app.
           cbn [notes chatter work rank fst snd]. lia.
      * discriminate.
Qed.

Lemma bridge_run (sched : list choice) :
  forall gs done s s',
    bridge_inv pkts rs0 gs done s ->
    run P sched s = Some s' ->
    exists gs' done',
      bridge_inv pkts rs0 gs' done' s' /\
      length sched + todo gs' s' <= todo gs s.
Proof.
  induction sched as [|c sched IH]; intros gs done s s' Hinv Hrun.
  - injection Hrun as <-. exists gs, done. split; [done|]. cbn [length]. lia.
  - cbn [run] in Hrun. destruct (step P c s) as [s1|] eqn:Hstep; [|done].
    destruct (bridge_step _ _ _ _ _ Hinv Hstep) as (gs1 & done1 & Hinv1 & Hlt).
    destruct (IH _ _ _ _ Hinv1 Hrun) as (gs' & done' & Hinv' & Hle).
    exists gs', done'. split; [done|]. cbn [length]. lia.
Qed.

Lemma g_all_done_or_not (gs : list gphase) :
  Forall gdone gs \/ exists i g, gs !! i = Some g /\ ~ gdone g.
Proof.
  induction gs as [|g gs IH]; [by left|].
  assert (Hdec : gdone g \/ ~ gdone g).
  { destruct g as [[|l ls]|d [line| |k| |]]; cbn; tauto. }
  destruct Hdec as [Hg|Hg]; [|right; by exists 0, g].
  destruct IH as [IH|(i & g' & Hi & Hne)].
  - left. by constructor.
  - right. by exists (S i), g'.
Qed.

Lemma g_cs_holder (gs : list gphase) :
  gather sel_cs (notes gs) <> [] ->
  exists i d ph, gs !! i = Some (GNote d ph) /\ sel_cs (d, ph) <> [].
Proof.
  induction gs as [|[l|d ph] gs IH]; cbn [notes gather]; [done| |].
  - intros H. destruct (IH H) as (i & d & ph & Hi & Hne).
    by exists (S i), d, ph.
  - intros H. destruct (sel_cs (d, ph)) eqn:E.
    + destruct (IH H) as (i & d' & ph' & Hi & Hne). by exists (S i), d', ph'.
    + exists 0, d, ph. split; [done|]. by rewrite E.
Qed.

Lemma g_cs_none (gs : list gphase) (i : nat) (d : list byte) (ph : phase) :
  gather sel_cs (notes gs) = [] -> gs !! i = Some (GNote d ph) ->
  sel_cs (d, ph) = [].
Proof.
  intros H Hi. apply list_elem_of_split_length in Hi as (gs1 & gs2 & -> & _).
  rewrite notes_app, gather_app in H. cbn [notes gather] in H.
  apply app_eq_nil in H as [_ H]. by apply app_eq_nil in H as [H _].
Qed.

(** A dispatcher that is not done can move, unless it waits for the mutex
    while another one holds it. *)
Lemma bridge_enabled (gs : list gphase) (done : list (list byte)) (s : proc)
    (i : nat) (g : gphase) :
  bridge_inv pkts rs0 gs done s -> st s = Running ->
  gs !! i = Some g -> ~ gdone g ->
  locked s = false \/ (exists d ph, g = GNote d ph /\ sel_cs (d, ph) <> []) ->
  exists s', step P (Task i) s = Some s'.
Proof.
  intros (seen & _ & _ & Htasks & _ & Hcs & _) Hs Hi Hne Hl.
  unfold step, step_task. rewrite Hs, Htasks, list_lookup_fmap, Hi.
  cbn [fmap option_fmap option_map].
  destruct g as [[|l ls]|d ph]; cbn [gtask_at map].
  - by destruct Hne.
  - by eexists.
  - destruct ph as [line| |k| |]; unfold task_at; cbn [fst snd].
    + by eexists.
    + destruct Hl as [->|(d' & ph' & [= <- <-] & Hl)]; [by eexists | done].
    + destruct (drop k d); by eexists.
    + destruct (locked s) eqn:E; [by eexists|].
      assert (H : sel_cs (d, PUnlock) = []).
      { apply (g_cs_none gs i); [|done]. apply cs_empty. by rewrite Hcs. }
      done.
    + by destruct Hne.
Qed.

Lemma bridge_progress (gs : list gphase) (done : list (list byte)) (s : proc) :
  bridge_inv pkts rs0 gs done s -> st s = Running ->
  Forall gdone gs \/ exists i s', step P (Task i) s = Some s'.
Proof.
  intros Hinv Hs. pose proof Hinv as (seen & _ & _ & _ & _ & Hcs & _).
  destruct (locked s) eqn:Hl.
  - right. destruct (g_cs_holder gs) as (i & d & ph & Hi & Hne).
    { intros E. by rewrite E in Hcs. }
    exists i. apply (bridge_enabled gs done s i (GNote d ph)); try done.
    + destruct ph; cbn; try done; tauto.
    + right. by exists d, ph.
  - destruct (g_all_done_or_not gs) as [H|(i & g & Hi & Hne)]; [by left|].
    right. exists i. apply (bridge_enabled gs done s i g); try done.
    by left.
Qed.

Lemma gdone_finished (gs : list gphase) :
  Forall gdone gs ->
  Forall finished (gtask_at <$> gs) /\
  Forall (fun x => x.2 = PDone) (notes gs).
Proof.
  induction 1 as [|g gs Hg _ [IH1 IH2]]; [done|].
  destruct g as [[|l ls]|d [line| |k| |]]; cbn in Hg; try done;
    rewrite fmap_cons; cbn [notes]; split; try done; by constructor.
Qed.

(** At rest and alive, everything received has been served. *)
Lemma bridge_rest (gs : list gphase) (done : list (list byte)) (s : proc) :
  bridge_inv pkts rs0 gs done s -> stuck P s -> st s = Running ->
  net s = [] /\ Forall finished (tasks s) /\
  dev s = concat done /\ done ≡ₚ wires (pkts ++ map pkt_of rs0).
Proof.
  intros Hinv Hstuck Hs.
  assert (Hnet : net s = []).
  { specialize (Hstuck Recv). unfold step, step_recv in Hstuck.
    rewrite Hs in Hstuck. by destruct (net s). }
  destruct (bridge_progress _ _ _ Hinv Hs) as [Hall|(i & s' & Hs')].
  2: { by rewrite Hstuck in Hs'. }
  destruct Hinv as (seen & Hrs & _ & Htasks & _ & _ & Hdev & Hperm).
  rewrite Hnet, app_nil_r in Hrs. subst seen.
  destruct (gdone_finished gs Hall) as [Hfin Hdone].
  rewrite (all_done_gather sel_partial) in Hdev by done.
  rewrite (all_done_gather sel_writing), (all_done_gather sel_wait) in Hperm
    by done.
  rewrite !app_nil_r in *. by rewrite Htasks.
Qed.

Lemma bridge_all_done_stuck (gs : list gphase) (done : list (list byte))
    (s : proc) :
  bridge_inv pkts rs0 gs done s -> net s = [] ->
  read_iter P = None \/ midi s = [] ->
  Forall gdone gs -> stuck P s.
Proof.
  intros (seen & _ & _ & Htasks & _) Hnet Hread Hall c.
  unfold step. destruct (st s); [|done|done]. destruct c as [| |i].
  - unfold step_recv. by rewrite Hnet.
  - unfold step_read. destruct Hread as [->| ->]; [done|].
    by destruct (read_iter P).
  - unfold step_task. rewrite Htasks, list_lookup_fmap.
    destruct (gs !! i) as [g|] eqn:Hi; [|done].
    rewrite Forall_lookup in Hall. specialize (Hall _ _ Hi).
    destruct g as [[|l ls]|d [line| |k| |]]; cbn in Hall; done.
Qed.

(** The bridge always comes to rest: some schedule takes every receive and
    lets every dispatcher finish (or ends in the reader's exit). *)
Lemma bridge_completes (n : nat) :
  forall gs done s,
    todo gs s < n -> bridge_inv pkts rs0 gs done s ->
    exists sched s', run P sched s = Some s' /\ stuck P s'.
Proof.
  induction n as [|n IH]; intros gs done s Hn Hinv; [lia|].
  assert (Hgo : forall c s1, step P c s = Some s1 ->
            exists sched s', run P sched s = Some s' /\ stuck P s').
  { intros c s1 Hs1.
    destruct (bridge_step _ _ _ _ _ Hinv Hs1) as (gs1 & d1 & Hinv1 & Hlt).
    destruct (IH gs1 d1 s1) as (sched & s' & Hrun & Hstuck); [lia|done|].
    exists (c :: sched), s'. split; [|done]. cbn [run]. by rewrite Hs1. }
  destruct (st s) eqn:Hs.
  2,3: exists [], s; split; [done|]; intros c; apply step_halted;
       by rewrite Hs.
  destruct (net s) as [|r rs] eqn:Hnet.
  2: { apply (Hgo Recv (absorb P (recv_iter P (buf s) r)
          (set_net rs
             match result (recv_iter P (buf s) r) with
             | Ret b => b | _ => buf s end s))).
       unfold step, step_recv. by rewrite Hs, Hnet. }
  assert (Hcase : read_iter P = None \/ exists it, read_iter P = Some it).
  { destruct (read_iter P) as [it|]; [right; by exists it | by left]. }
  destruct Hcase as [Hnone|[it Hit]].
  - destruct (bridge_progress _ _ _ Hinv Hs) as [Hall|(i & s1 & Hs1)].
    + exists [], s. split; [done|].
      apply (bridge_all_done_stuck gs done); try done. by left.
    + by apply (Hgo (Task i) s1).
  - destruct (midi s) as [|r rs] eqn:Hmidi.
    + destruct (bridge_progress _ _ _ Hinv Hs) as [Hall|(i & s1 & Hs1)].
      * exists [], s. split; [done|].
        apply (bridge_all_done_stuck gs done); try done. by right.
      * by apply (Hgo (Task i) s1).
    + apply (Hgo Read (absorb P (it (mbuf s) r)
          (set_midi rs
             match result (it (mbuf s) r) with
             | Ret b => b | _ => mbuf s end s))).
      unfold step, step_read. by rewrite Hs, Hit, Hmidi.
Qed.

Lemma wires_three (l : list (list byte)) :
  Forall (fun w => length w = 3) (wires l).
Proof.
  induction l as [|p l IH]; [done|].
  cbn [wires]. destruct (is_valid p); [by constructor | done].
Qed.

Lemma partial_shape (ts : list (list byte * phase)) :
  length (gather sel_cs ts) <= 1 ->
  gather sel_partial ts = [] \/
  exists w k, w ∈ gather sel_writing ts /\ gather sel_partial ts = take k w.
Proof.
  induction ts as [|[d ph] ts IH]; [by left|].
  cbn [gather]. rewrite length_app. intros Hle.
  destruct ph as [line| |k| |];
    cbn [sel_cs sel_writing sel_partial fst snd length app] in *;
    try (apply IH; lia).
  - destruct (no_cs_no_write ts) as [_ ->]; [apply cs_empty; lia|].
    right. exists d, k. rewrite app_nil_r. split; [|done].
    apply elem_of_cons. by left.
Qed.

(** The stream at any moment. *)
Lemma bridge_stream (gs : list gphase) (done : list (list byte)) (s : proc) :
  bridge_inv pkts rs0 gs done s ->
  st s <> Crashed /\
  exists seen rest part,
    rs0 = seen ++ net s /\
    done ++ rest ≡ₚ wires (pkts ++ map pkt_of seen) /\
    Forall (fun w => length w = 3) done /\
    dev s = concat done ++ part /\
    (part = [] \/ exists w k, w ∈ rest /\ part = take k w).
Proof.
  intros (seen & Hrs & _ & _ & Hst & Hcs & Hdev & Hperm).
  split; [done|].
  exists seen, (gather sel_writing (notes gs) ++ gather sel_wait (notes gs)),
         (gather sel_partial (notes gs)).
  split; [done|]. split; [done|]. split.
  { pose proof (wires_three (pkts ++ map pkt_of seen)) as H3.
    rewrite <- Hperm in H3. by apply Forall_app in H3 as [H3 _]. }
  split; [done|].
  destruct (partial_shape (notes gs)) as [H|(w & k & Hin & H)].
  - destruct (locked s); lia.
  - by left.
  - right. exists w, k. split; [|done]. apply elem_of_app. by left.
Qed.

Lemma boot_gs (l : list (list byte)) :
  Forall (fun p => 5 <= length p) l ->
  exists gs,
    dispatch P <$> l = gtask_at <$> gs /\
    gather sel_cs (notes gs) = [] /\
    gather sel_wait (notes gs) = wires l /\
    work (notes gs) + chatter gs <= 7 * length l.
Proof.
  induction 1 as [|pkt l Hl _ (gs & Ht & Hcs & Hw & Hwork)].
  - by exists [].
  - destruct (P_disp pkt Hl) as (g & Hg & Hkind).
    exists (g :: gs). rewrite !fmap_cons, Hg, Ht. split; [done|].
    destruct Hkind as [(Hv & line & ->)|(Hv & lines & -> & Hlen)];
      cbn [notes gather sel_cs sel_wait work chatter rank fst snd app length
           wire wires]; rewrite Hv, Hcs, Hw; repeat split; cbn [app]; lia.
Qed.

Hypothesis long_pkts : Forall (fun p => 5 <= length p) pkts.

Lemma boot_bridge (ms : list devread) :
  exists gs,
    bridge_inv pkts rs0 gs [] (boot P rs0 ms pkts) /\
    todo gs (boot P rs0 ms pkts)
      <= 7 * length pkts + 8 * length rs0 + length ms.
Proof.
  destruct (boot_gs pkts long_pkts) as (gs & Ht & Hcs & Hw & Hwork).
  exists gs. split.
  - exists []. unfold boot.
    cbn [tasks st net buf midi locked dev map app].
    split; [done|]. split; [by rewrite length_replicate|].
    split; [exact Ht|]. split; [done|].
    unfold acct. destruct (no_cs_no_write _ Hcs) as [-> ->].
    rewrite Hcs, Hw, (app_nil_r pkts). done.
  - unfold todo, boot. cbn [net midi]. lia.
Qed.

(** All of it together, for a variant that fits. *)
Lemma bridge_serves (ms : list devread) :
  (exists sched s, run P sched (boot P rs0 ms pkts) = Some s /\ stuck P s) /\
  forall sched s,
    run P sched (boot P rs0 ms pkts) = Some s ->
    length sched <= 7 * length pkts + 8 * length rs0 + length ms /\
    (st s <> Crashed /\
     exists seen done rest part,
       rs0 = seen ++ net s /\
       done ++ rest ≡ₚ wires (pkts ++ map pkt_of seen) /\
       Forall (fun w => length w = 3) done /\
       dev s = concat done ++ part /\
       (part = [] \/ exists w k, w ∈ rest /\ part = take k w)) /\
    (stuck P s -> st s = Running ->
     net s = [] /\ Forall finished (tasks s) /\
     exists done,
       done ≡ₚ wires (pkts ++ map pkt_of rs0) /\ dev s = concat done).
Proof.
  destruct (boot_bridge ms) as (gs0 & Hinv0 & Htodo).
  split.
  { apply (bridge_completes (S (todo gs0 (boot P rs0 ms pkts))) gs0 []);
      [lia | done]. }
  intros sched s Hrun.
  destruct (bridge_run _ _ _ _ _ Hinv0 Hrun) as (gs & done & Hinv & Hle).
  split; [lia|]. split.
  - destruct (bridge_stream _ _ _ Hinv) as (Hst & seen & rest & part & H).
    split; [done|]. by exists seen, done, rest, part.
  - intros Hstuck Hs.
    destruct (bridge_rest _ _ _ Hinv Hstuck Hs) as (Hnet & Hfin & Hdev & Hp).
    split; [done|]. split; [done|]. by exists done.
Qed.

End Bridge.

Lemma main_go_fits :
  (forall b r, recv_iter main_go b r = MainGo.main_iter b r) /\
  (forall pkt, 5 <= length pkt ->
     exists g,
       dispatch main_go pkt = gtask_at g /\
       ((is_valid pkt = true /\
         exists line, g = GNote (wire (drop 5 pkt)) (PPrint line)) \/
        (is_valid pkt = false /\
         exists lines, g = GQuiet lines /\ length lines <= 1))) /\
  (forall it b r, read_iter main_go = Some it ->
     spawned (actions (it b r)) = [] /\ result (it b r) <> Panicked).
Proof.
  split; [done|]. split; [|done].
  intros pkt Hl. cbn [dispatch main_go]. rewrite MainGo_handleCmd_long by done.
  destruct (is_valid pkt).
  - eexists (GNote _ (PPrint _)). split; [reflexivity|]. left. eauto.
  - destruct (bytes_eqb (take 5 pkt) midiCall).
    + exists (GQuiet []). split; [done|]. right. split; [done|].
      exists []. split; [done|]. cbn. lia.
    + eexists (GQuiet [_]). split; [reflexivity|]. right. split; [done|].
      eexists. split; [reflexivity|]. cbn. lia.
Qed.

Lemma part_000_fits :
  (forall b r, recv_iter part_000 b r = MainGo.main_iter b r) /\
  (forall pkt, 5 <= length pkt ->
     exists g,
       dispatch part_000 pkt = gtask_at g /\
       ((is_valid pkt = true /\
         exists line, g = GNote (wire (drop 5 pkt)) (PPrint line)) \/
        (is_valid pkt = false /\
         exists lines, g = GQuiet lines /\ length lines <= 1))) /\
  (forall it b r, read_iter part_000 = Some it ->
     spawned (actions (it b r)) = [] /\ result (it b r) <> Panicked).
Proof.
  split; [done|]. split.
  - intros pkt Hl. cbn [dispatch part_000].
    rewrite Part000_handleCmd_long by done.
    destruct (is_valid pkt).
    + eexists (GNote _ (PPrint _)). split; [reflexivity|]. left. eauto.
    + destruct (bytes_eqb (take 5 pkt) midiCall).
      * exists (GQuiet []). split; [done|]. right. split; [done|].
        exists []. split; [done|]. cbn. lia.
      * eexists (GQuiet [_]). split; [reflexivity|]. right. split; [done|].
        eexists. split; [reflexivity|]. cbn. lia.
  - intros it b r [= <-].
    by destruct (listen_iter_quiet b r) as (? & _ & _ & ?).
Qed.

(** X12: the bridge at work, with the receive loop taking datagrams, the
    reader (where there is one) reading the input device and any number of
    dispatchers under way, scheduled in any way. As long as no packet
    shorter than five bytes arrives the process never crashes, and at every
    moment the output device holds whole 3-byte messages, one after the
    other, followed by the beginning of at most one more; the messages made
    and those still owed are exactly the ones that the valid packets taken
    so far call for. Both variants. *)
Theorem bridge_stream_never_torn
    (pkts : list (list byte)) (rs : list recv) (ms : list devread)
    (P : program) (sched : list choice) (s : proc) :
  Forall (fun p => 5 <= length p) pkts ->
  Forall (fun r => 5 <= length (rx_data r)) rs ->
  P = main_go \/ P = part_000 ->
  run P sched (boot P rs ms pkts) = Some s ->
  st s <> Crashed /\
  exists seen done rest part,
    rs = seen ++ net s /\
    done ++ rest ≡ₚ wires (pkts ++ map pkt_of seen) /\
    Forall (fun w => length w = 3) done /\
    dev s = concat done ++ part /\
    (part = [] \/ exists w k, w ∈ rest /\ part = take k w).
Proof.
  intros Hp Hr HP Hrun.
  assert (H : (forall b r, recv_iter P b r = MainGo.main_iter b r) /\
    (forall pkt, 5 <= length pkt ->
       exists g,
         dispatch P pkt = gtask_at g /\
         ((is_valid pkt = true /\
           exists line, g = GNote (wire (drop 5 pkt)) (PPrint line)) \/
          (is_valid pkt = false /\
           exists lines, g = GQuiet lines /\ length lines <= 1))) /\
    (forall it b r, read_iter P = Some it ->
       spawned (actions (it b r)) = [] /\ result (it b r) <> Panicked)).
  { destruct HP as [->| ->]; [apply main_go_fits | apply part_000_fits]. }
  destruct H as (H1 & H2 & H3).
  destruct (bridge_serves P H1 H2 H3 pkts rs Hr Hp ms) as [_ Hall].
  apply (Hall sched s Hrun).
Qed.

Lemma bridge_stream_never_torn_witness :
  exists s,
    run part_000 [Recv; Task 0; Task 0; Task 0]
        (boot part_000 mixed_traffic [] []) = Some s /\
    st s <> Crashed /\ dev s = [x92] /\
    exists seen done rest part,
      mixed_traffic = seen ++ net s /\
      done ++ rest ≡ₚ wires ([] ++ map pkt_of seen) /\
      Forall (fun w => length w = 3) done /\
      dev s = concat done ++ part /\
      (part = [] \/ exists w k, w ∈ rest /\ part = take k w).
Proof.
  assert (Hr : Forall (fun r => 5 <= length (rx_data r)) mixed_traffic).
  { repeat (constructor; [simpl; lia|]). constructor. }
  destruct (run part_000 [Recv; Task 0; Task 0; Task 0]
              (boot part_000 mixed_traffic [] [])) as [s|] eqn:Hrun;
    [|by vm_compute in Hrun].
  exists s. split; [reflexivity|].
  destruct (bridge_stream_never_torn [] mixed_traffic [] part_000 _ s
              (List.Forall_nil _) Hr (or_intror eq_refl) Hrun) as [Hst Hshape].
  split; [exact Hst|]. split; [|exact Hshape].
  vm_compute in Hrun. injection Hrun as <-. reflexivity.
Defined.

(** X13: the bridge serves every packet exactly once. With no packet
    shorter than five bytes, from start-up on any traffic: the process can
    always come to rest; no schedule is longer than seven steps per
    dispatcher under way at the start, eight per receive and one per device
    read; and whenever the process is at rest and alive, every receive has
    been taken, every dispatcher has returned, and the device holds exactly
    one 3-byte message for every valid packet, dispatched at the start or
    received, and nothing for any other packet, in some order. Both
    variants. *)
Theorem bridge_serves_every_packet
    (pkts : list (list byte)) (rs : list recv) (ms : list devread)
    (P : program) :
  Forall (fun p => 5 <= length p) pkts ->
  Forall (fun r => 5 <= length (rx_data r)) rs ->
  P = main_go \/ P = part_000 ->
  (exists sched s, run P sched (boot P rs ms pkts) = Some s /\ stuck P s) /\
  forall sched s,
    run P sched (boot P rs ms pkts) = Some s ->
    length sched <= 7 * length pkts + 8 * length rs + length ms /\
    (stuck P s -> st s = Running ->
     net s = [] /\ Forall finished (tasks s) /\
     exists done,
       done ≡ₚ wires (pkts ++ map pkt_of rs) /\ dev s = concat done).
Proof.
  intros Hp Hr HP.
  assert (H : (forall b r, recv_iter P b r = MainGo.main_iter b r) /\
    (forall pkt, 5 <= length pkt ->
       exists g,
         dispatch P pkt = gtask_at g /\
         ((is_valid pkt = true /\
           exists line, g = GNote (wire (drop 5 pkt)) (PPrint line)) \/
          (is_valid pkt = false /\
           exists lines, g = GQuiet lines /\ length lines <= 1))) /\
    (forall it b r, read_iter P = Some it ->
       spawned (actions (it b r)) = [] /\ result (it b r) <> Panicked)).
  { destruct HP as [->| ->]; [apply main_go_fits | apply part_000_fits]. }
  destruct H as (H1 & H2 & H3).
  destruct (bridge_serves P H1 H2 H3 pkts rs Hr Hp ms) as [Hex Hall].
  split; [exact Hex|]. intros sched s Hrun.
  destruct (Hall sched s Hrun) as (Hlen & _ & Hrest). by split.
Qed.

Lemma bridge_serves_every_packet_witness :
  exists s,
    run part_000 in_turn (boot part_000 mixed_traffic [] []) = Some s /\
    stuck part_000 s /\ st s = Running /\
    dev s = [x92; x3c; x64] /\
    net s = [] /\ Forall finished (tasks s) /\
    exists done,
      done ≡ₚ wires ([] ++ map pkt_of mixed_traffic) /\ dev s = concat done.
Proof.
  assert (Hr : Forall (fun r => 5 <= length (rx_data r)) mixed_traffic).
  { repeat (constructor; [simpl; lia|]). constructor. }
  destruct (run part_000 in_turn (boot part_000 mixed_traffic [] []))
    as [s|] eqn:Hrun; [|by vm_compute in Hrun].
  exists s. split; [reflexivity|].
  assert (Hs : stuck part_000 s /\ st s = Running /\
               dev s = [x92; x3c; x64]).
  { vm_compute in Hrun. injection Hrun as <-.
    split; [|split; reflexivity].
    intros [| |[|[|[|i]]]]; reflexivity. }
  destruct Hs as (Hstuck & Hst & Hdev).
  split; [exact Hstuck|]. split; [exact Hst|]. split; [exact Hdev|].
  destruct (bridge_serves_every_packet [] mixed_traffic [] part_000
              (List.Forall_nil _) Hr (or_intror eq_refl)) as [_ Hall].
  destruct (Hall in_turn s Hrun) as [_ Hrest].
  exact (Hrest Hstuck Hst).
Defined.

(* ====================================================================== *)
(** * One short packet is enough                                           *)
(* ====================================================================== *)

Lemma step_task_net (P : program) (i : nat) (s s' : proc) :
  step_task P i s = Some s' -> net s' = net s.
Proof.
  unfold step_task. intros H.
  destruct (tasks s !! i) as [[[|a rest] o]|]; [| |discriminate].
  - destruct o; try discriminate; by injection H as <-.
  - destruct a as [x|x| | |[|b w]|p]; try destruct (locked s);
      try discriminate; by injection H as <-.
Qed.

Lemma short_dispatch_panics (P : program) (pkt : list byte) :
  P = main_go \/ P = part_000 -> length pkt < 5 ->
  dispatch P pkt = ([], Panicked).
Proof.
  intros [->| ->] H; cbn [dispatch main_go part_000].
  - rewrite MainGo_handleCmd_cases.
    by destruct (Nat.ltb_spec (length pkt) 5); [|lia].
  - rewrite Part000_handleCmd_cases.
    by destruct (Nat.ltb_spec (length pkt) 5); [|lia].
Qed.

Lemma doomed_step (P : program) (c : choice) (s s' : proc) :
  P = main_go \/ P = part_000 ->
  doomed s -> step P c s = Some s' -> doomed s'.
Proof.
  intros HP [Hst|[[i Hi]|Hnet]] Hstep.
  - by rewrite step_halted in Hstep.
  - destruct (step_keeps_panic P c s s' i Hi Hstep) as [Hc|Hk].
    + left. by rewrite Hc.
    + right. left. by exists i.
  - unfold step in Hstep. destruct (st s) eqn:Hs; try discriminate.
    destruct c as [| |i].
    + unfold step_recv in Hstep.
      destruct (net s) as [|r rs]; [discriminate|]. injection Hstep as <-.
      assert (Hiter : recv_iter P (buf s) r = MainGo.main_iter (buf s) r)
        by (by destruct HP as [->| ->]).
      rewrite Hiter.
      destruct (MainGo_main_iter_effects (buf s) r) as (Hsp & _ & _ & Hres).
      unfold absorb, doomed. rewrite Hsp, Hres.
      cbn [halt set_tasks put_console set_net
           st net buf midi mbuf tasks locked dev console map].
      apply Exists_cons in Hnet as [Hshort|Hlater]; [|by right; right].
      right. left. exists (length (tasks s)).
      rewrite (short_dispatch_panics P) by (try done; rewrite length_take; lia).
      by apply list_lookup_middle.
    + unfold step_read in Hstep.
      destruct (read_iter P) as [it|]; [|discriminate].
      destruct (midi s); [discriminate|]. injection Hstep as <-.
      right. right. unfold absorb.
      by destruct (result (it (mbuf s) d)).
    + right. right. by rewrite (step_task_net P i s s' Hstep).
Qed.

Lemma doomed_run (P : program) (sched : list choice) :
  P = main_go \/ P = part_000 ->
  forall s s', doomed s -> run P sched s = Some s' -> doomed s'.
Proof.
  intros HP. induction sched as [|c sched IH]; intros s s' Hd Hrun.
  - by injection Hrun as <-.
  - cbn [run] in Hrun. destruct (step P c s) as [s1|] eqn:Hstep; [|done].
    apply (IH s1); [|done]. by apply (doomed_step P c s).
Qed.

(** X14: one packet shorter than five bytes is enough to doom the process.
    If such a packet is among those dispatched at the start, or among the
    datagrams still to be received, then whatever the scheduler does and
    whatever else arrives, the process never comes to rest alive: as long
    as it runs, either the short datagram is still to be taken or its
    dispatcher is there to panic. Both variants. *)
Theorem short_packet_dooms_process
    (P : program) (pkts : list (list byte)) (rs : list recv)
    (ms : list devread) (sched : list choice) (s : proc) :
  P = main_go \/ P = part_000 ->
  Exists (fun p => length p < 5) pkts \/
  Exists (fun r => length (rx_data r) < 5) rs ->
  run P sched (boot P rs ms pkts) = Some s ->
  stuck P s ->
  st s <> Running.
Proof.
  intros HP Hshort Hrun Hstuck Hs.
  assert (Hd : doomed (boot P rs ms pkts)).
  { destruct Hshort as [Hp|Hr]; [|by right; right].
    right. left. apply Exists_exists in Hp as (p & Hin & Hlen).
    apply list_elem_of_lookup in Hin as [i Hi]. exists i.
    cbn [tasks boot].
    change (map (dispatch P) pkts) with (dispatch P <$> pkts).
    rewrite list_lookup_fmap, Hi. cbn [fmap option_fmap option_map].
    f_equal. by apply short_dispatch_panics. }
  destruct (doomed_run P sched HP _ _ Hd Hrun) as [Hst|[[i Hi]|Hnet]].
  - done.
  - specialize (Hstuck (Task i)). unfold step, step_task in Hstuck.
    by rewrite Hs, Hi in Hstuck.
  - specialize (Hstuck Recv). unfold step, step_recv in Hstuck.
    rewrite Hs in Hstuck. destruct (net s); [|done].
    by apply Exists_nil in Hnet.
Qed.

Lemma short_packet_dooms_process_witness :
  exists s,
    run main_go [Recv; Recv; Task 1]
        (boot main_go [next_note; mkRecv [x2f; x6d] None None] [] [])
      = Some s /\
    stuck main_go s /\ st s = Crashed.
Proof.
  destruct (run main_go [Recv; Recv; Task 1]
              (boot main_go [next_note; mkRecv [x2f; x6d] None None] [] []))
    as [s|] eqn:Hrun; [|by vm_compute in Hrun].
  exists s. split; [reflexivity|].
  assert (Hs : stuck main_go s /\ (st s = Running \/ st s = Crashed)).
  { vm_compute in Hrun. injection Hrun as <-. split; [|by right].
    intros c. reflexivity. }
  destruct Hs as [Hstuck Hst]. split; [exact Hstuck|].
  assert (Hshort : Exists (fun p : list byte => length p < 5) [] \/
                   Exists (fun r => length (rx_data r) < 5)
                          [next_note; mkRecv [x2f; x6d] None None]).
  { right. apply Exists_cons_tl, Exists_cons_hd. simpl. lia. }
  pose proof (short_packet_dooms_process main_go [] _ [] _ s
                (or_introl eq_refl) Hshort Hrun Hstuck) as Hne.
  destruct Hst as [Hst|Hst]; [by destruct Hne | exact Hst].
Defined.
